(** * localtunnel-server: a shallow embedding of the tunnel server's core

    The development follows the source files of the repository:
    - [Regex]          the anchored regular expression of the admin route
                       [GET /:id] (server.js);
    - [TunnelAgent]    the per-client socket pool (lib/TunnelAgent.js);
    - [Client]         the session object and its grace timer (lib/Client.js);
    - [ClientManager]  the registry and the port pool (lib/ClientManager.js);
    - [Server]         the public request handler, the identification of
                       callers and the error handling of the admin route
                       [GET /:id] (server.js);
    - [NonceCache], [HmacAuthenticator]  the replay cache and the validation
                       of signed requests.

    Conventions.  JavaScript numbers that hold counts, ports and epoch times
    are integers of [Z] (within the range where a double is exact);
    identities of objects (sockets, callbacks, timers) are natural numbers;
    an undefined or null value is [None].  The registry, which the source
    reads and writes as properties of an object, is a [gmap] from ids to
    clients; the [Set] of used ports is a [gset].  Handlers run to
    completion, so each handler is a function from the state before to the
    state after, together with the effects it has on the outside (writes to
    a socket, calls of callbacks, emitted events).  What a handler reads
    from its surroundings (the clock, the environment, the random id, the
    outcome of [listen]) is an argument.  Calls of [debug] are left out. *)

From Stdlib Require Import ZArith Lia Ascii String List Bool.
From stdpp Require Import gmap strings list fin_maps pretty.

Open Scope Z_scope.

(* ===================================================================== *)
(** ** Regular expressions (the fragment used by server.js)               *)
(* ===================================================================== *)

Module Regex.

(** Abstract syntax of the fragment: character classes, concatenation,
    alternation and bounded repetition [r{lo,hi}].  The patterns of the
    server are anchored with [^] and [$], so [test] is whole-string
    matching. *)
Inductive re : Type :=
| Void
| Eps
| Class (p : ascii → bool)
| Seq (r1 r2 : re)
| Alt (r1 r2 : re)
| Rep (lo hi : nat) (r : re).

Fixpoint nullable (r : re) : bool :=
  match r with
  | Void => false
  | Eps => true
  | Class _ => false
  | Seq r1 r2 => nullable r1 && nullable r2
  | Alt r1 r2 => nullable r1 || nullable r2
  | Rep lo _ r => Nat.eqb lo 0 || nullable r
  end.

(** Brzozowski derivative with respect to one character. *)
Fixpoint deriv (c : ascii) (r : re) : re :=
  match r with
  | Void => Void
  | Eps => Void
  | Class p => if p c then Eps else Void
  | Seq r1 r2 =>
      Alt (Seq (deriv c r1) r2) (if nullable r1 then deriv c r2 else Void)
  | Alt r1 r2 => Alt (deriv c r1) (deriv c r2)
  | Rep _ O _ => Void
  | Rep lo (S hi) r => Seq (deriv c r) (Rep (Nat.pred lo) hi r)
  end.

Fixpoint accepts (r : re) (s : list ascii) : bool :=
  match s with
  | [] => nullable r
  | c :: s' => accepts (deriv c r) s'
  end.

(** [/^r$/.test(s)] *)
Definition test (r : re) (s : string) : bool :=
  accepts r (list_ascii_of_string s).

Definition in_range (lo hi c : ascii) : bool :=
  (N_of_ascii lo <=? N_of_ascii c)%N && (N_of_ascii c <=? N_of_ascii hi)%N.

(** [[a-z0-9]] *)
Definition lower_digit (c : ascii) : bool :=
  in_range "a" "z" c || in_range "0" "9" c.

(** [[a-z0-9\-]] *)
Definition lower_digit_hyphen (c : ascii) : bool :=
  in_range "a" "z" c || in_range "0" "9" c || Ascii.eqb c "-".

(** [/^(?:[a-z0-9][a-z0-9\-]{4,63}[a-z0-9]|[a-z0-9]{4,63})$/] *)
Definition subdomain_re : re :=
  Alt (Seq (Class lower_digit)
           (Seq (Rep 4 63 (Class lower_digit_hyphen)) (Class lower_digit)))
      (Rep 4 63 (Class lower_digit)).

(** The guard of [adminRouter.get('/:id')]: the route answers 403 exactly
    when this test fails. *)
Definition valid_subdomain (reqId : string) : bool := test subdomain_re reqId.

(** What the comment of the route and its error message announce: between 4
    and 63 characters, lowercase alphanumerics, hyphens only inside. *)
Definition announced_subdomain (reqId : string) : bool :=
  let s := list_ascii_of_string reqId in
  (4 <=? length s)%nat && (length s <=? 63)%nat
  && forallb lower_digit_hyphen s
  && match s with [] => false | c :: _ => lower_digit c end
  && match rev s with [] => false | c :: _ => lower_digit c end.

(** Sixty-four times the letter a. *)
Definition sixty_four_a : string :=
  string_of_list_ascii (repeat "a"%char 64).

End Regex.

(* ===================================================================== *)
(** ** Text helpers                                                       *)
(* ===================================================================== *)

Module Text.

(** The double quote, carriage return and line feed characters. *)
Definition dquote : string := String (ascii_of_nat 34) EmptyString.
Definition crlf : string :=
  String (ascii_of_nat 13) (String (ascii_of_nat 10) EmptyString).

(** Template-literal interpolation of an integer: [`${n}`]. *)
Definition num (n : Z) : string := pretty n.

(** A JSON string literal (for text without characters to escape). *)
Definition json_str (s : string) : string := dquote +:+ s +:+ dquote.

Definition byteLength (s : string) : Z := Z.of_nat (String.length s).

(** [a || b] on a number that may be undefined: 0 is falsy. *)
Definition or_default (o : option Z) (d : Z) : Z :=
  match o with
  | Some v => if v =? 0 then d else v
  | None => d
  end.

(** Truthiness of an optional number. *)
Definition truthy (o : option Z) : bool :=
  match o with
  | Some v => negb (v =? 0)
  | None => false
  end.

(** Truthiness of an optional string: undefined and the empty string are
    falsy. *)
Definition nonempty (o : option string) : option string :=
  match o with
  | Some EmptyString => None
  | _ => o
  end.

(** [Math.ceil(x / d)] for integers, [d > 0]. *)
Definition ceil_div (x d : Z) : Z := - ((- x) / d).

Definition is_space (c : ascii) : bool :=
  let n := nat_of_ascii c in
  (Nat.leb 9 n && Nat.leb n 13) || Nat.eqb n 32.

Definition digit (c : ascii) : option Z :=
  let n := Z.of_nat (nat_of_ascii c) in
  if (48 <=? n) && (n <=? 57) then Some (n - 48) else None.

Fixpoint skip_space (s : list ascii) : list ascii :=
  match s with
  | c :: s' => if is_space c then skip_space s' else s
  | [] => []
  end.

(** Value of the longest prefix of decimal digits, continuing [acc]. *)
Fixpoint digits (acc : Z) (s : list ascii) : Z :=
  match s with
  | c :: s' =>
      match digit c with
      | Some d => digits (10 * acc + d) s'
      | None => acc
      end
  | [] => acc
  end.

(** [parseInt(s, 10)]: leading white space is skipped, a sign is read, then
    the longest run of digits; what follows is ignored.  [None] is NaN. *)
Definition parseInt (s : string) : option Z :=
  let l := skip_space (list_ascii_of_string s) in
  let '(sign, l) :=
    match l with
    | c :: r => if Ascii.eqb c "-" then (-1, r)
                else if Ascii.eqb c "+" then (1, r) else (1, l)
    | [] => (1, l)
    end in
  match l with
  | c :: _ => match digit c with
              | Some _ => Some (sign * digits 0 l)
              | None => None
              end
  | [] => None
  end.

End Text.

(* ===================================================================== *)
(** ** TunnelAgent.js                                                     *)
(* ===================================================================== *)

Module TunnelAgent.
Import Text.

(** Identities of socket objects and of [createConnection] callbacks. *)
Definition socket := nat.
Definition callback := nat.

Definition DEFAULT_MAX_SOCKETS : Z := 10.

Record options := Options {
  clientId : string;
  opt_maxTcpSockets : option Z;
  opt_port : option Z
}.

Record t := Agent {
  availableSockets : list socket;
  waitingCreateConn : list callback;
  connectedSockets : Z;
  maxTcpSockets : Z;
  rejectedConnections : Z;
  port : option Z;
  started : bool;
  closed : bool;
  (** sockets that carry the [once('close')] and [once('error')] handlers
      installed by [_onConnection] *)
  attached : list socket
}.

Inductive signal := Online | Offline | End_.

(** Second argument of a callback [cb(err, socket)]. *)
Inductive sockarg := ArgSocket (s : socket) | ArgNull | ArgUndefined.

Inductive effect :=
| Emit (e : signal)
| Write (s : socket) (data : string)
| EndSocket (s : socket)
| DestroySocket (s : socket)
| Call (cb : callback) (err : option string) (arg : sockarg)
| CallLater (cb : callback) (arg : sockarg)   (* setTimeout(.., 0) *)
| ServerClose.

Definition constructor (o : options) : t :=
  {| availableSockets := [];
     waitingCreateConn := [];
     connectedSockets := 0;
     maxTcpSockets := or_default (opt_maxTcpSockets o) DEFAULT_MAX_SOCKETS;
     rejectedConnections := 0;
     port := opt_port o;
     started := false;
     closed := false;
     attached := [] |}.

Record stats_t := Stats {
  st_connectedSockets : Z;
  st_rejectedConnections : Z;
  st_availableSockets : Z;
  st_waitingRequests : Z
}.

Definition stats (a : t) : stats_t :=
  {| st_connectedSockets := connectedSockets a;
     st_rejectedConnections := rejectedConnections a;
     st_availableSockets := Z.of_nat (length (availableSockets a));
     st_waitingRequests := Z.of_nat (length (waitingCreateConn a)) |}.

(** [listen()]: throws when already started; otherwise marks the agent
    started (the promise settles later, from the environment). *)
Definition listen (a : t) : string + t :=
  if started a then inl "already started"%string
  else inr {| availableSockets := availableSockets a;
              waitingCreateConn := waitingCreateConn a;
              connectedSockets := connectedSockets a;
              maxTcpSockets := maxTcpSockets a;
              rejectedConnections := rejectedConnections a;
              port := port a;
              started := true;
              closed := closed a;
              attached := attached a |}.

(** [_onClose()]: every queued callback is failed, the queue is emptied. *)
Definition _onClose (a : t) : t * list effect :=
  ({| availableSockets := availableSockets a;
      waitingCreateConn := [];
      connectedSockets := connectedSockets a;
      maxTcpSockets := maxTcpSockets a;
      rejectedConnections := rejectedConnections a;
      port := port a;
      started := started a;
      closed := true;
      attached := attached a |},
   map (λ conn, Call conn (Some "closed"%string) ArgNull) (waitingCreateConn a)
     ++ [Emit End_]).

(** The JSON body of the 429 answer. *)
Definition payload (a : t) : string :=
  "{" +:+ json_str "error" +:+ ":" +:+ json_str "Too Many Connections"
  +:+ "," +:+ json_str "code" +:+ ":" +:+ num 429
  +:+ "," +:+ json_str "max_sockets" +:+ ":" +:+ num (maxTcpSockets a)
  +:+ "," +:+ json_str "current_sockets" +:+ ":" +:+ num (connectedSockets a)
  +:+ "," +:+ json_str "available_sockets" +:+ ":"
      +:+ num (Z.of_nat (length (availableSockets a)))
  +:+ "," +:+ json_str "waiting_requests" +:+ ":"
      +:+ num (Z.of_nat (length (waitingCreateConn a)))
  +:+ "}".

(** The writes of the rejection branch, in order. *)
Definition rejection (a : t) (sock : socket) : list effect :=
  [ Write sock ("HTTP/1.1 429 Too Many Connections" +:+ crlf);
    Write sock ("Content-Type: application/json" +:+ crlf);
    Write sock ("Content-Length: " +:+ num (byteLength (payload a)) +:+ crlf);
    Write sock ("X-LT-Max-Sockets: " +:+ num (maxTcpSockets a) +:+ crlf);
    Write sock ("X-LT-Current-Sockets: " +:+ num (connectedSockets a) +:+ crlf);
    Write sock ("X-LT-Available-Sockets: "
                +:+ num (Z.of_nat (length (availableSockets a))) +:+ crlf);
    Write sock ("X-LT-Waiting-Requests: "
                +:+ num (Z.of_nat (length (waitingCreateConn a))) +:+ crlf);
    Write sock ("Connection: close" +:+ crlf);
    Write sock crlf;
    Write sock (payload a);
    EndSocket sock ].

(** [_onConnection(socket)] *)
Definition _onConnection (sock : socket) (a : t) : t * list effect :=
  if maxTcpSockets a <=? connectedSockets a then
    let a' := {| availableSockets := availableSockets a;
                 waitingCreateConn := waitingCreateConn a;
                 connectedSockets := connectedSockets a;
                 maxTcpSockets := maxTcpSockets a;
                 rejectedConnections := rejectedConnections a + 1;
                 port := port a;
                 started := started a;
                 closed := closed a;
                 attached := attached a |} in
    (a', rejection a' sock)
  else
    let online := if connectedSockets a =? 0 then [Emit Online] else [] in
    match waitingCreateConn a with
    | fn :: rest =>
        ({| availableSockets := availableSockets a;
            waitingCreateConn := rest;
            connectedSockets := connectedSockets a + 1;
            maxTcpSockets := maxTcpSockets a;
            rejectedConnections := rejectedConnections a;
            port := port a;
            started := started a;
            closed := closed a;
            attached := sock :: attached a |},
         online ++ [CallLater fn (ArgSocket sock)])
    | [] =>
        ({| availableSockets := availableSockets a ++ [sock];
            waitingCreateConn := [];
            connectedSockets := connectedSockets a + 1;
            maxTcpSockets := maxTcpSockets a;
            rejectedConnections := rejectedConnections a;
            port := port a;
            started := started a;
            closed := closed a;
            attached := sock :: attached a |},
         online)
    end.

(** [indexOf] followed by [splice(idx, 1)]: the first occurrence goes. *)
Fixpoint remove_first (x : socket) (l : list socket) : list socket :=
  match l with
  | [] => []
  | y :: l' => if Nat.eqb x y then l' else y :: remove_first x l'
  end.

(** The [once('close')] handler of an attached socket. *)
Definition onSocketClose (sock : socket) (a : t) : t * list effect :=
  if existsb (Nat.eqb sock) (attached a) then
    let n := connectedSockets a - 1 in
    ({| availableSockets := remove_first sock (availableSockets a);
        waitingCreateConn := waitingCreateConn a;
        connectedSockets := n;
        maxTcpSockets := maxTcpSockets a;
        rejectedConnections := rejectedConnections a;
        port := port a;
        started := started a;
        closed := closed a;
        attached := remove_first sock (attached a) |},
     if n <=? 0 then [Emit Offline] else [])
  else (a, []).

(** The [once('error')] handler of an attached socket. *)
Definition onSocketError (sock : socket) (a : t) : t * list effect :=
  if existsb (Nat.eqb sock) (attached a) then (a, [DestroySocket sock])
  else (a, []).

(** [createConnection(options, cb)] *)
Definition createConnection (cb : callback) (a : t) : t * list effect :=
  if closed a then (a, [Call cb (Some "closed"%string) ArgUndefined])
  else
    match availableSockets a with
    | [] =>
        ({| availableSockets := [];
            waitingCreateConn := waitingCreateConn a ++ [cb];
            connectedSockets := connectedSockets a;
            maxTcpSockets := maxTcpSockets a;
            rejectedConnections := rejectedConnections a;
            port := port a;
            started := started a;
            closed := closed a;
            attached := attached a |}, [])
    | sock :: rest =>
        ({| availableSockets := rest;
            waitingCreateConn := waitingCreateConn a;
            connectedSockets := connectedSockets a;
            maxTcpSockets := maxTcpSockets a;
            rejectedConnections := rejectedConnections a;
            port := port a;
            started := started a;
            closed := closed a;
            attached := attached a |},
         [Call cb None (ArgSocket sock)])
    end.

(** [destroy()]: the listener is asked to close; [_onClose] runs when the
    server's [close] event arrives. *)
Definition destroy (a : t) : t * list effect := (a, [ServerClose]).

(** What can happen to an agent. *)
Inductive event :=
| Connection (s : socket)
| SocketClose (s : socket)
| SocketError (s : socket)
| CreateConnection (cb : callback)
| ServerClosed
| Destroy.

Definition step (e : event) (a : t) : t * list effect :=
  match e with
  | Connection s => _onConnection s a
  | SocketClose s => onSocketClose s a
  | SocketError s => onSocketError s a
  | CreateConnection cb => createConnection cb a
  | ServerClosed => _onClose a
  | Destroy => destroy a
  end.

(** Running a sequence of events, collecting the effects in order. *)
Fixpoint run (evs : list event) (a : t) : t * list effect :=
  match evs with
  | [] => (a, [])
  | e :: evs' =>
      let '(a1, out1) := step e a in
      let '(a2, out2) := run evs' a1 in
      (a2, out1 ++ out2)
  end.

(** The callbacks that [createConnection] did not answer on the spot, in
    order of arrival: these are the ones it put in the queue. *)
Fixpoint enqueued (evs : list event) (a : t) : list callback :=
  match evs with
  | [] => []
  | e :: evs' =>
      let '(a1, out1) := step e a in
      match e, out1 with
      | CreateConnection cb, [] => cb :: enqueued evs' a1
      | _, _ => enqueued evs' a1
      end
  end.

(** The callbacks that left the queue, in order: deferred hand-offs of
    [_onConnection] and the failures of [_onClose]. *)
Definition dequeued (out : list effect) : list callback :=
  omap (λ e, match e with
             | CallLater cb _ => Some cb
             | Call cb _ ArgNull => Some cb
             | _ => None
             end) out.

(** Waiters and idle sockets exclude each other. *)
Definition exclusive (a : t) : Prop :=
  waitingCreateConn a ≠ [] → availableSockets a = [].

(** The [online] and [offline] signals among the effects, in order. *)
Definition signals (out : list effect) : list signal :=
  omap (λ e, match e with
             | Emit Online => Some Online
             | Emit Offline => Some Offline
             | _ => None
             end) out.


(** The sockets given to callbacks, in order. *)
Definition handed (out : list effect) : list socket :=
  omap (λ e, match e with
             | Call _ None (ArgSocket s) => Some s
             | CallLater _ (ArgSocket s) => Some s
             | _ => None
             end) out.

(** The sockets of the incoming connections among the events. *)
Definition connections (evs : list event) : list socket :=
  omap (λ e, match e with Connection s => Some s | _ => None end) evs.

(** What the counter counts: the sockets with a close handler; the idle
    ones are among them. *)
Definition counted (a : t) : Prop :=
  connectedSockets a = Z.of_nat (length (attached a)) ∧
  availableSockets a ⊆+ attached a.

(** A closed agent with an empty queue. *)
Definition shut (a : t) : Prop := closed a = true ∧ waitingCreateConn a = [].

End TunnelAgent.

(* ===================================================================== *)
(** ** Client.js                                                          *)
(* ===================================================================== *)

Module Client.
Import Text.

(** The variables of [process.env] read by the modelled code. *)
Record process_env := Env {
  LT_GRACE_PERIOD : option string;
  LT_MAX_GRACE_PERIOD : option string;
  LT_IP_VALIDATION_STRICT : option string
}.

(** What a handler reads from its surroundings when it runs: the clock
    [Date.now()] and the environment. *)
Record world := World {
  now : Z;
  env : process_env
}.

Definition getMaxGracePeriod (e : process_env) : Z :=
  match nonempty (LT_MAX_GRACE_PERIOD e) with
  | None => 300000
  | Some envValue =>
      match parseInt envValue with
      | None => 300000
      | Some parsed => if parsed <=? 0 then 300000 else parsed
      end
  end.

Definition DEFAULT_GRACE_PERIOD : Z := 30000.

(** [MAX_GRACE_PERIOD] is computed once, when the module is loaded; the
    model reads it from the environment record at hand, which is the same
    value as long as LT_MAX_GRACE_PERIOD is not changed while the server
    runs. *)
Definition getGracePeriod (e : process_env) : Z :=
  let MAX_GRACE_PERIOD := getMaxGracePeriod e in
  match nonempty (LT_GRACE_PERIOD e) with
  | None => DEFAULT_GRACE_PERIOD
  | Some envValue =>
      match parseInt envValue with
      | None => DEFAULT_GRACE_PERIOD
      | Some parsed =>
          if parsed <? 0 then DEFAULT_GRACE_PERIOD
          else if MAX_GRACE_PERIOD <? parsed then MAX_GRACE_PERIOD
          else parsed
      end
  end.

Definition getGracePeriodValue (e : process_env) : Z := getGracePeriod e.

(** [{ type: 'token' | 'ip', value }]; the value of an ip identifier is
    undefined when the caller gave no address. *)
Record identifier_t := Identifier {
  type : string;
  value : option string
}.

Definition timer := nat.

Record t := Client {
  id : string;
  agent : TunnelAgent.t;
  isOnline : bool;
  originalIP : option string;
  identifier : identifier_t;
  createdAt : Z;
  (** [this.graceTimeout]: undefined or null is [None] *)
  graceTimeout : option timer;
  (** the [once('error')] listener on the agent is still installed *)
  errorListener : bool;
  (** the client's part of the event loop: timeouts that are set and
      neither fired nor cleared, each with the time at which it is due;
      whether the constructor's [setImmediate] callback still waits; and
      the next fresh timer handle *)
  armed : list (timer * Z);
  immediate : bool;
  nextTimer : timer
}.

Inductive effect :=
| AgentEffect (e : TunnelAgent.effect)
| EmitClose.

Record options := Options {
  opt_id : string;
  opt_agent : TunnelAgent.t;
  opt_originalIP : option string;
  opt_identifier : option identifier_t
}.

Definition constructor (w : world) (o : options) : t :=
  let originalIP := nonempty (opt_originalIP o) in
  {| id := opt_id o;
     agent := opt_agent o;
     isOnline := false;
     originalIP := originalIP;
     identifier := match opt_identifier o with
                   | Some i => i
                   | None => Identifier "ip" originalIP
                   end;
     createdAt := now w;
     graceTimeout := None;
     errorListener := true;
     armed := [];
     immediate := true;
     nextTimer := 0%nat |}.

Definition with_agent (a : TunnelAgent.t) (c : t) : t :=
  {| id := id c; agent := a; isOnline := isOnline c;
     originalIP := originalIP c; identifier := identifier c;
     createdAt := createdAt c; graceTimeout := graceTimeout c;
     errorListener := errorListener c; armed := armed c;
     immediate := immediate c; nextTimer := nextTimer c |}.

Definition with_isOnline (b : bool) (c : t) : t :=
  {| id := id c; agent := agent c; isOnline := b;
     originalIP := originalIP c; identifier := identifier c;
     createdAt := createdAt c; graceTimeout := graceTimeout c;
     errorListener := errorListener c; armed := armed c;
     immediate := immediate c; nextTimer := nextTimer c |}.

(** [clearTimeout(h)] *)
Definition clearTimeout (h : timer) (l : list (timer * Z)) : list (timer * Z) :=
  List.filter (λ p, negb (Nat.eqb (fst p) h)) l.

(** Delay of [setTimeout]: values below 1 or above 2^31 - 1 become 1. *)
Definition delay (ms : Z) : Z :=
  if (ms <? 1) || (2147483647 <? ms) then 1 else ms.

Definition _clearGracePeriod (c : t) : t :=
  match graceTimeout c with
  | Some h =>
      {| id := id c; agent := agent c; isOnline := isOnline c;
         originalIP := originalIP c; identifier := identifier c;
         createdAt := createdAt c; graceTimeout := None;
         errorListener := errorListener c;
         armed := clearTimeout h (armed c);
         immediate := immediate c; nextTimer := nextTimer c |}
  | None => c
  end.

Definition _setGracePeriod (w : world) (c : t) : t :=
  let gracePeriod := getGracePeriodValue (env w) in
  let h := nextTimer c in
  {| id := id c; agent := agent c; isOnline := isOnline c;
     originalIP := originalIP c; identifier := identifier c;
     createdAt := createdAt c; graceTimeout := Some h;
     errorListener := errorListener c;
     armed := armed c ++ [(h, now w + delay gracePeriod)];
     immediate := immediate c; nextTimer := S h |}.

Definition hasAvailableSockets (c : t) : bool :=
  negb (Nat.eqb (length (TunnelAgent.availableSockets (agent c))) 0).

Definition getGracePeriodRemaining (w : world) (c : t) : Z :=
  match graceTimeout c with
  | None => 0
  | Some _ =>
      if createdAt c =? 0 then 0
      else
        let elapsed := now w - createdAt c in
        let gracePeriod := getGracePeriodValue (env w) in
        Z.max 0 (gracePeriod - elapsed)
  end.

Definition stats (c : t) : TunnelAgent.stats_t := TunnelAgent.stats (agent c).

(** [close()] *)
Definition close (c : t) : t * list effect :=
  let c1 := _clearGracePeriod c in
  let '(a, out) := TunnelAgent.destroy (agent c1) in
  (with_agent a c1, map AgentEffect out ++ [EmitClose]).

(** Listener of the agent's [online]. *)
Definition onOnline (c : t) : t := _clearGracePeriod (with_isOnline true c).

(** Listener of the agent's [offline]. *)
Definition onOffline (w : world) (c : t) : t :=
  _setGracePeriod w (_clearGracePeriod (with_isOnline false c)).

(** Listener of the agent's [error], installed with [once]. *)
Definition onError (c : t) : t * list effect :=
  if errorListener c then
    close {| id := id c; agent := agent c; isOnline := isOnline c;
             originalIP := originalIP c; identifier := identifier c;
             createdAt := createdAt c; graceTimeout := graceTimeout c;
             errorListener := false; armed := armed c;
             immediate := immediate c; nextTimer := nextTimer c |}
  else (c, []).

(** The callback given to [setImmediate] by the constructor. *)
Definition onImmediate (w : world) (c : t) : t :=
  if immediate c then
    let c1 := {| id := id c; agent := agent c; isOnline := isOnline c;
                 originalIP := originalIP c; identifier := identifier c;
                 createdAt := createdAt c; graceTimeout := graceTimeout c;
                 errorListener := errorListener c; armed := armed c;
                 immediate := false; nextTimer := nextTimer c |} in
    if isOnline c1 then c1 else _setGracePeriod w c1
  else c.

(** The callback of the grace timeout [h]; it runs only if [h] is still
    set, and then no longer is. *)
Definition onTimeout (h : timer) (c : t) : t * list effect :=
  if existsb (λ p, Nat.eqb (fst p) h) (armed c) then
    close {| id := id c; agent := agent c; isOnline := isOnline c;
             originalIP := originalIP c; identifier := identifier c;
             createdAt := createdAt c; graceTimeout := graceTimeout c;
             errorListener := errorListener c;
             armed := clearTimeout h (armed c);
             immediate := immediate c; nextTimer := nextTimer c |}
  else (c, []).

(** The signals of the agent reach the listeners in order. *)
Fixpoint deliver (w : world) (out : list TunnelAgent.effect) (c : t) : t :=
  match out with
  | [] => c
  | TunnelAgent.Emit TunnelAgent.Online :: out' => deliver w out' (onOnline c)
  | TunnelAgent.Emit TunnelAgent.Offline :: out' =>
      deliver w out' (onOffline w c)
  | _ :: out' => deliver w out'  c
  end.

(** What can happen to a client. *)
Inductive event :=
| AgentEvent (e : TunnelAgent.event)   (* something happens to its agent *)
| AgentOnline                          (* agent.emit('online') *)
| AgentOffline                         (* agent.emit('offline') *)
| AgentError                           (* agent.emit('error', err) *)
| Immediate
| Timeout (h : timer)
| Close.                               (* client.close() *)

Definition step (w : world) (e : event) (c : t) : t * list effect :=
  match e with
  | AgentEvent ae =>
      let '(a, out) := TunnelAgent.step ae (agent c) in
      (deliver w out (with_agent a c), map AgentEffect out)
  | AgentOnline => (onOnline c, [])
  | AgentOffline => (onOffline w c, [])
  | AgentError => onError c
  | Immediate => (onImmediate w c, [])
  | Timeout h => onTimeout h c
  | Close => close c
  end.

(** A run: each event comes with the clock and environment of its time. *)
Fixpoint run (evs : list (world * event)) (c : t) : t * list effect :=
  match evs with
  | [] => (c, [])
  | (w, e) :: evs' =>
      let '(c1, out1) := step w e c in
      let '(c2, out2) := run evs' c1 in
      (c2, out1 ++ out2)
  end.

(** Number of [close] events emitted. *)
Definition closes (out : list effect) : nat :=
  length (List.filter (λ e, match e with EmitClose => true | _ => false end)
                      out).

(** Time left until the timeout held in [graceTimeout] is due. *)
Definition untilClose (w : world) (c : t) : option Z :=
  match graceTimeout c with
  | Some h =>
      match List.find (λ p, Nat.eqb (fst p) h) (armed c) with
      | Some (_, due) => Some (due - now w)
      | None => None
      end
  | None => None
  end.

(** Runs in which [online] and [offline] reach the client only as its own
    agent emits them. *)
Definition from_agent (evs : list (world * event)) : bool :=
  forallb (λ we, match snd we with
                 | AgentOnline | AgentOffline => false
                 | _ => true
                 end) evs.

(** The timer discipline of a client whose [setImmediate] callback has run:
    the only timeout that is set is the one held in [graceTimeout], and none
    is set while the client is online. *)
Definition one_timer (c : t) : Prop :=
  immediate c = false ∧
  match graceTimeout c with
  | None => armed c = []
  | Some h => ∃ due, armed c = [(h, due)]
  end ∧
  (isOnline c = true → graceTimeout c = None).

(** The online flag after the listeners have heard the signals [sigs]. *)
Definition heard (b : bool) (sigs : list TunnelAgent.signal) : bool :=
  foldl (λ b s, match s with
                | TunnelAgent.Online => true
                | TunnelAgent.Offline => false
                | TunnelAgent.End_ => b
                end) b sigs.

(** The online flag follows the agent's counter. *)
Definition tracks_agent (c : t) : Prop :=
  TunnelAgent.counted (agent c) ∧
  isOnline c = (0 <? TunnelAgent.connectedSockets (agent c)).

End Client.

(* ===================================================================== *)
(** ** ClientManager.js                                                   *)
(* ===================================================================== *)

Module ClientManager.
Import Text.

Record options := Options {
  max_tcp_sockets : option Z;
  opt_portRangeStart : option Z;
  opt_portRangeEnd : option Z
}.

(** The registry [clients] is keyed by id.  A client is stored by value: the
    events of a registered client are applied to its entry ([clientEvent]). *)
Record t := Manager {
  opt : options;
  clients : gmap string Client.t;
  tunnels : Z;                       (* stats.tunnels *)
  portRangeStart : option Z;
  portRangeEnd : option Z;
  availablePorts : list Z;
  usedPorts : gset Z
}.

(** [this.portRangeStart && this.portRangeEnd] *)
Definition range_configured (m : t) : bool :=
  truthy (portRangeStart m) && truthy (portRangeEnd m).

(** The ports pushed by the constructor's loop. *)
Definition initial_ports (lo hi : option Z) : list Z :=
  match lo, hi with
  | Some a, Some b => if truthy lo && truthy hi then seqZ a (b - a + 1) else []
  | _, _ => []
  end.

Definition constructor (o : options) : t :=
  {| opt := o;
     clients := ∅;
     tunnels := 0;
     portRangeStart := opt_portRangeStart o;
     portRangeEnd := opt_portRangeEnd o;
     availablePorts := initial_ports (opt_portRangeStart o) (opt_portRangeEnd o);
     usedPorts := ∅ |}.

Inductive error :=
| NoAvailablePorts
| Reserved (id : string) (remainingTime : Z)
| ListenFailed (msg : string).

Definition message (e : error) : string :=
  match e with
  | NoAvailablePorts => "No available ports in range"
  | Reserved id remainingTime =>
      "Subdomain " +:+ dquote +:+ id +:+ dquote
      +:+ " is reserved by another client. Try again in "
      +:+ num remainingTime +:+ "s or use a different subdomain."
  | ListenFailed msg => msg
  end.

Definition with_ports (avail : list Z) (used : gset Z) (m : t) : t :=
  {| opt := opt m; clients := clients m; tunnels := tunnels m;
     portRangeStart := portRangeStart m; portRangeEnd := portRangeEnd m;
     availablePorts := avail; usedPorts := used |}.

Definition with_clients (cs : gmap string Client.t) (n : Z) (m : t) : t :=
  {| opt := opt m; clients := cs; tunnels := n;
     portRangeStart := portRangeStart m; portRangeEnd := portRangeEnd m;
     availablePorts := availablePorts m; usedPorts := usedPorts m |}.

(** [_getPort()]: an error, or the manager after the move and the port
    ([None] is undefined: the system picks a port). *)
Definition _getPort (m : t) : error + (t * option Z) :=
  match availablePorts m with
  | [] => if range_configured m then inl NoAvailablePorts else inr (m, None)
  | port :: rest => inr (with_ports rest ({[port]} ∪ usedPorts m) m, Some port)
  end.

(** [_releasePort(port)] *)
Definition _releasePort (port : option Z) (m : t) : t :=
  match port with
  | Some p =>
      if negb (truthy port) || negb (truthy (portRangeStart m))
         || negb (truthy (portRangeEnd m))
      then m
      else if bool_decide (p ∈ usedPorts m)
           then with_ports (availablePorts m ++ [p]) (usedPorts m ∖ {[p]}) m
           else m
  | None => m
  end.

(** What the manager does to the outside: effects of a client, named by
    the client's id. *)
Inductive effect := ClientEffect (id : string) (e : Client.effect).

(** [removeClient(id)].  The [close] emitted at the end reaches the listener
    that [newClient] installed on this client, [() => this.removeClient(id)],
    if it has not run yet; the entry for [id] is deleted by then, so that
    call returns at [if (!client)]. *)
Definition removeClient (id : string) (m : t) : t * list effect :=
  match clients m !! id with
  | None => (m, [])
  | Some client =>
      let port := TunnelAgent.port (Client.agent client) in
      let m1 := _releasePort port m in
      let m2 := with_clients (delete id (clients m1)) (tunnels m1 - 1) m1 in
      let '(_, out) := Client.close client in
      (m2, map (ClientEffect id) out)
  end.

Definition hasClient (id : string) (m : t) : bool :=
  bool_decide (is_Some (clients m !! id)).

Definition getClient (id : string) (m : t) : option Client.t := clients m !! id.

(** The second argument of [newClient]. *)
Record new_options := NewOptions {
  ip : option string;
  new_identifier : option Client.identifier_t
}.

Record info := Info {
  info_id : string;
  info_port : Z;
  max_conn_count : option Z
}.

(** How the promise of [agent.listen()] settles. *)
Inductive listen_outcome := Resolves (port : Z) | Rejects (msg : string).

Definition identifierMatch (a b : Client.identifier_t) : bool :=
  bool_decide (Client.type a = Client.type b)
  && bool_decide (Client.value a = Client.value b).

Definition strictMode (e : Client.process_env) : bool :=
  bool_decide (Client.LT_IP_VALIDATION_STRICT e = Some "true"%string).

(** [options.identifier || { type: 'ip', value: requestIP }] *)
Definition caller_identifier (o : new_options) : Client.identifier_t :=
  match new_identifier o with
  | Some i => i
  | None => Client.Identifier "ip" (ip o)
  end.

(** The first part of [newClient]: which id the new tunnel gets.  [rnd] is
    the string that [hri.random()] returns if it is called. *)
Definition resolve_id (w : Client.world) (id : string)
    (identifier : Client.identifier_t) (rnd : string) (m : t)
  : error + (t * string * list effect) :=
  match clients m !! id with
  | Some existingClient =>
      if bool_decide (is_Some (Client.graceTimeout existingClient))
         && negb (Client.isOnline existingClient)
      then
        if identifierMatch (Client.identifier existingClient) identifier then
          let '(m1, out) := removeClient id m in inr (m1, id, out)
        else if strictMode (Client.env w) then
          inl (Reserved id
                 (ceil_div (Client.getGracePeriodRemaining w existingClient)
                           1000))
        else inr (m, rnd, [])
      else
        if identifierMatch (Client.identifier existingClient) identifier then
          let '(m1, out) := removeClient id m in inr (m1, id, out)
        else inr (m, rnd, [])
  | None => inr (m, id, [])
  end.

(** A call of [newClient] that has reached [await agent.listen()]. *)
Record pending := Pending {
  pend_id : string;
  maxSockets : option Z
}.

Record begun := Begun {
  state : t;
  out : list effect;
  ret : error + pending
}.

(** [newClient] up to the [await]: the id is resolved, a port is taken, the
    agent and the client are built, the client is put in the registry and
    [agent.listen()] is called.  An exception leaves the manager as it was
    when it was thrown. *)
Definition newClient_begin (w : Client.world) (id : string) (o : new_options)
    (rnd : string) (m : t) : begun :=
  let requestIP := ip o in
  let identifier := caller_identifier o in
  match resolve_id w id identifier rnd m with
  | inl e => Begun m [] (inl e)
  | inr (m1, id1, out1) =>
      let maxSockets := max_tcp_sockets (opt m1) in
      match _getPort m1 with
      | inl e => Begun m1 out1 (inl e)
      | inr (m2, port) =>
          let agent := TunnelAgent.constructor
                         (TunnelAgent.Options id1 maxSockets port) in
          let agent := match TunnelAgent.listen agent with
                       | inr a => a
                       | inl _ => agent
                       end in
          let client := Client.constructor w
                          (Client.Options id1 agent requestIP (Some identifier)) in
          Begun (with_clients (<[id1 := client]> (clients m2)) (tunnels m2) m2)
                out1 (inr (Pending id1 maxSockets))
      end
  end.

Record settled := Settled {
  final : t;
  emitted : list effect;
  result : error + info
}.

(** [newClient] after the [await]. *)
Definition newClient_settle (l : listen_outcome) (p : pending) (m : t)
  : settled :=
  match l with
  | Resolves port =>
      Settled (with_clients (clients m) (tunnels m + 1) m) []
              (inr (Info (pend_id p) port (maxSockets p)))
  | Rejects msg =>
      let '(m1, out) := removeClient (pend_id p) m in
      Settled m1 out (inl (ListenFailed msg))
  end.

(** A call of [newClient] during which nothing else happens. *)
Definition newClient (w : Client.world) (id : string) (o : new_options)
    (rnd : string) (l : listen_outcome) (m : t) : settled :=
  let b := newClient_begin w id o rnd m in
  match ret b with
  | inl e => Settled (state b) (out b) (inl e)
  | inr p =>
      let s := newClient_settle l p (state b) in
      Settled (final s) (out b ++ emitted s) (result s)
  end.

(** An event of the registered client [id].  When the client emits [close],
    the listener installed by [newClient] calls [removeClient(id)]. *)
Definition clientEvent (w : Client.world) (id : string) (e : Client.event)
    (m : t) : t * list effect :=
  match clients m !! id with
  | None => (m, [])
  | Some c =>
      let '(c1, out) := Client.step w e c in
      let m1 := with_clients (<[id := c1]> (clients m)) (tunnels m) m in
      if Nat.ltb 0 (Client.closes out) then
        let '(m2, out2) := removeClient id m1 in
        (m2, map (ClientEffect id) out ++ out2)
      else (m1, map (ClientEffect id) out)
  end.

(** What can happen to a manager.  A call of [newClient] is either taken as
    a whole, or in its two parts, with other operations in between: its
    start up to the [await], and later the settling of a pending call. *)
Inductive op :=
| NewClient (w : Client.world) (id : string) (o : new_options) (rnd : string)
            (l : listen_outcome)
| NewClientBegin (w : Client.world) (id : string) (o : new_options)
                 (rnd : string)
| NewClientSettle (l : listen_outcome) (p : pending)
| RemoveClient (id : string)
| ClientEvent (w : Client.world) (id : string) (e : Client.event).

Definition apply (o : op) (m : t) : t :=
  match o with
  | NewClient w id no rnd l => final (newClient w id no rnd l m)
  | NewClientBegin w id no rnd => state (newClient_begin w id no rnd m)
  | NewClientSettle l p => final (newClient_settle l p m)
  | RemoveClient id => fst (removeClient id m)
  | ClientEvent w id e => fst (clientEvent w id e m)
  end.

Definition run (ops : list op) (m : t) : t := foldl (λ m o, apply o m) m ops.

(** The ports listened on by the clients of the registry. *)
Definition port_of (m : t) (id : string) : option Z :=
  match clients m !! id with
  | Some c => TunnelAgent.port (Client.agent c)
  | None => None
  end.

(** The available list and the used set together hold each port of the
    configured range once. *)
Definition pool_partition (m : t) : Prop :=
  availablePorts m ++ elements (usedPorts m)
  ≡ₚ initial_ports (portRangeStart m) (portRangeEnd m).

Definition ports_used (m : t) : Prop :=
  ∀ id p, port_of m id = Some p → p ∈ usedPorts m.

Definition ports_distinct (m : t) : Prop :=
  ∀ id1 id2 p, port_of m id1 = Some p → port_of m id2 = Some p → id1 = id2.

Definition inv (m : t) : Prop :=
  pool_partition m ∧ ports_used m ∧ ports_distinct m.

(** With a configured range every registered client got its port from the
    pool. *)
Definition ports_assigned (m : t) : Prop :=
  range_configured m = true →
  ∀ id, is_Some (clients m !! id) → is_Some (port_of m id).

(** The client that [newClient] builds and puts in the registry, for the
    id it has settled on and the port it has taken. *)
Definition created (w : Client.world) (id1 : string) (o : new_options)
    (maxSockets port : option Z) : Client.t :=
  let agent := TunnelAgent.constructor
                 (TunnelAgent.Options id1 maxSockets port) in
  let agent := match TunnelAgent.listen agent with
               | inr a => a
               | inl _ => agent
               end in
  Client.constructor w
    (Client.Options id1 agent (ip o) (Some (caller_identifier o))).

(** What the registry records of a client: it is filed under its own id, and
    its agent counts its sockets, below the limit given to the manager. *)
Definition recorded (o : options) (id : string) (c : Client.t) : Prop :=
  Client.id c = id ∧
  TunnelAgent.counted (Client.agent c) ∧
  TunnelAgent.maxTcpSockets (Client.agent c)
    = or_default (max_tcp_sockets o) TunnelAgent.DEFAULT_MAX_SOCKETS ∧
  TunnelAgent.connectedSockets (Client.agent c)
    ≤ TunnelAgent.maxTcpSockets (Client.agent c).

End ClientManager.

(* ===================================================================== *)
(** ** server.js: the public request handler                              *)
(* ===================================================================== *)

Module Server.
Import Text.

(** What the handler reads of a request. *)
Record request := Request {
  url : string;
  host : option string          (* req.headers.host *)
}.

(** What the handler does with the response. *)
Inductive response :=
| Healthz                       (* 200 and the body {status: 'healthy'} *)
| HostRequired                  (* 400, 'Host header is required' *)
| AdminCallback                 (* adminCallback(req, res) *)
| Ended (statusCode : Z) (statusMessage : string)
        (retryAfterHeader : option string)
| HandleRequest (clientId : string).   (* client.handleRequest(req, res) *)

(** The first answer of [adminRouter.get('/:id')], once the request has
    passed the authentication: 403 for an id that fails the pattern,
    otherwise the call of [manager.newClient(reqId, ...)]. *)
Inductive admin_answer :=
| Forbidden (status : Z) (message : string)
| MakeClient (reqId : string).

Definition getById (reqId : string) : admin_answer :=
  if Regex.valid_subdomain reqId then MakeClient reqId
  else Forbidden 403
         ("Invalid subdomain. Subdomains must be lowercase and between "
          +:+ "4 and 63 alphanumeric characters.").

Section Router.

(** [myTldjs.getSubdomain], from the tldjs package. *)
Variable GetClientIdFromHostname : string → option string.

(** [opt.retryAfter] *)
Variable opt_retryAfter : option Z.

Definition retryAfter : Z := or_default opt_retryAfter 5.

(** [server.on('request', ...)] *)
Definition onRequest (w : Client.world) (manager : ClientManager.t)
    (req : request) : response :=
  if String.eqb (url req) "/healthz" then Healthz
  else
    match nonempty (host req) with
    | None => HostRequired
    | Some hostname =>
        match nonempty (GetClientIdFromHostname hostname) with
        | None => AdminCallback
        | Some clientId =>
            match ClientManager.getClient clientId manager with
            | None => Ended 404 "Tunnel Not Found" None
            | Some client =>
                if negb (Client.isOnline client)
                   && bool_decide (is_Some (Client.graceTimeout client))
                then
                  let remaining :=
                    ceil_div (Client.getGracePeriodRemaining w client) 1000 in
                  Ended 503 "Service Temporarily Unavailable"
                        (Some (num remaining))
                else if Client.isOnline client
                        && negb (Client.hasAvailableSockets client)
                then Ended 503 "Service Unavailable" (Some (num retryAfter))
                else HandleRequest clientId
            end
        end
    end.

End Router.

(** [String.prototype.includes] *)
Fixpoint includes (needle hay : string) : bool :=
  String.prefix needle hay ||
  match hay with
  | EmptyString => false
  | String _ hay' => includes needle hay'
  end.

(** What the [catch] of [adminRouter.get('/:id')] makes of an error of
    [manager.newClient]: the answer 409, or the error thrown again. *)
Inductive caught :=
| Conflict (status : Z) (error message : string)
| Rethrown (e : ClientManager.error).

Definition onNewClientError (err : ClientManager.error) : caught :=
  if includes "reserved by another client" (ClientManager.message err)
  then Conflict 409 "Subdomain reserved" (ClientManager.message err)
  else Rethrown err.

(** What [getClientIP] and [getClientIdentifier] read of a request.  The
    characters of a header value are code units below 256. *)
Record caller := Caller {
  x_lt_client_token : option string;
  x_forwarded_for : option string;
  x_real_ip : option string;
  remoteAddress : option string        (* req.socket.remoteAddress *)
}.

(** The white space that [trim] removes, among the code units below 256. *)
Definition is_trim_space (c : ascii) : bool :=
  is_space c || Nat.eqb (nat_of_ascii c) 160.

Fixpoint trim_start (l : list ascii) : list ascii :=
  match l with
  | c :: l' => if is_trim_space c then trim_start l' else l
  | [] => []
  end.

(** [s.trim()] *)
Definition trim (s : string) : string :=
  string_of_list_ascii
    (rev (trim_start (rev (trim_start (list_ascii_of_string s))))).

(** [s.split(',')[0]] *)
Fixpoint before_comma (l : list ascii) : list ascii :=
  match l with
  | c :: l' => if Ascii.eqb c "," then [] else c :: before_comma l'
  | [] => []
  end.

Definition getClientIP (LT_TRUST_PROXY : option string) (req : caller)
  : option string :=
  let trustProxy := bool_decide (LT_TRUST_PROXY = Some "true"%string) in
  if trustProxy then
    let forwarded :=
      match x_forwarded_for req with
      | Some v => Some (trim (string_of_list_ascii
                                (before_comma (list_ascii_of_string v))))
      | None => None
      end in
    match nonempty forwarded with
    | Some ip => Some ip
    | None =>
        match nonempty (x_real_ip req) with
        | Some ip => Some ip
        | None => remoteAddress req
        end
    end
  else remoteAddress req.

(** [[a-zA-Z0-9_-]] *)
Definition token_char (c : ascii) : bool :=
  Regex.in_range "a" "z" c || Regex.in_range "A" "Z" c
  || Regex.in_range "0" "9" c || Ascii.eqb c "_" || Ascii.eqb c "-".

(** [/^[a-zA-Z0-9_-]+$/.test(s)] *)
Definition token_format (s : string) : bool :=
  match list_ascii_of_string s with
  | [] => false
  | l => forallb token_char l
  end.

Definition getClientIdentifier (LT_TRUST_PROXY : option string) (req : caller)
  : Client.identifier_t :=
  match nonempty (x_lt_client_token req) with
  | Some clientToken =>
      if Nat.ltb 0 (String.length (trim clientToken)) then
        let trimmedToken := trim clientToken in
        if Nat.ltb 256 (String.length trimmedToken) then
          Client.Identifier "ip" (getClientIP LT_TRUST_PROXY req)
        else if negb (token_format trimmedToken) then
          Client.Identifier "ip" (getClientIP LT_TRUST_PROXY req)
        else Client.Identifier "token" (Some trimmedToken)
      else Client.Identifier "ip" (getClientIP LT_TRUST_PROXY req)
  | None => Client.Identifier "ip" (getClientIP LT_TRUST_PROXY req)
  end.

End Server.

(* ===================================================================== *)
(** ** NonceCache.js                                                      *)
(* ===================================================================== *)

Module NonceCache.
Import Text.

(** The values on which the callers use [add] and [has]: numbers and
    strings.  Both methods start with [nonce.toString()]. *)
Inductive value := Num (n : Z) | Str (s : string).

Definition toString (v : value) : string :=
  match v with
  | Num n => num n
  | Str s => s
  end.

Record t := Cache {
  cache : gmap string Z;        (* nonce -> expiry time (ms) *)
  ttl : Z                       (* ms *)
}.

Definition constructor (ttl_seconds : Z) : t := Cache ∅ (ttl_seconds * 1000).

(** [has(nonce)] at time [now]; an expired entry is removed. *)
Definition has (now : Z) (nonce : value) (c : t) : bool * t :=
  let nonceStr := toString nonce in
  match cache c !! nonceStr with
  | None => (false, c)
  | Some expiryTime =>
      if expiryTime <=? now then (false, Cache (delete nonceStr (cache c)) (ttl c))
      else (true, c)
  end.

(** [add(nonce)] at time [now] *)
Definition add (now : Z) (nonce : value) (c : t) : t :=
  let nonceStr := toString nonce in
  let expiryTime := now + ttl c in
  Cache (<[nonceStr := expiryTime]> (cache c)) (ttl c).

(** [cleanup()] at time [now] *)
Definition cleanup (now : Z) (c : t) : t :=
  Cache (filter (λ kv : string * Z, now < kv.2) (cache c)) (ttl c).

Definition size (c : t) : nat := base.size (cache c).

End NonceCache.

(* ===================================================================== *)
(** ** HmacAuthenticator.js                                               *)
(* ===================================================================== *)

Module HmacAuthenticator.
Import Text.

(** What [validateRequest] reads of a request.  [body] is
    [JSON.stringify(req.body)] when the request has a body. *)
Record request := Request {
  authorization : option string;
  x_timestamp : option string;
  x_nonce : option string;
  method : string;
  path : string;
  body : option string
}.

Record t := Authenticator {
  secret : string;
  timestampTolerance : Z;       (* seconds *)
  nonceThreshold : Z;           (* seconds *)
  nonceCache : NonceCache.t
}.

Record options := Options {
  opt_timestampTolerance : option Z;
  opt_nonceThreshold : option Z;
  opt_nonceCacheTTL : option Z
}.

Definition constructor (loadedSecret : string) (o : options) : t :=
  {| secret := loadedSecret;
     timestampTolerance := or_default (opt_timestampTolerance o) 60;
     nonceThreshold := or_default (opt_nonceThreshold o) 3600;
     nonceCache := NonceCache.constructor
                     (or_default (opt_nonceCacheTTL o) 7200) |}.

(** [validateSecret] *)
Definition validateSecret (s : string) : bool :=
  Nat.leb 32 (String.length s).

(** An error thrown inside [validateRequest]: message and code. *)
Record failure := Failure {
  reason : string;
  reasonCode : string
}.

Inductive outcome :=
| Valid
| Invalid (f : failure).

Definition extractHeaders (req : request)
  : failure + (string * string * string) :=
  match nonempty (authorization req) with
  | None => inl (Failure "Missing Authorization header" "missing_auth_header")
  | Some auth =>
      match nonempty (x_timestamp req) with
      | None => inl (Failure "Missing X-Timestamp header" "missing_timestamp")
      | Some timestamp =>
          match nonempty (x_nonce req) with
          | None => inl (Failure "Missing X-Nonce header" "missing_nonce")
          | Some nonce => inr (auth, timestamp, nonce)
          end
      end
  end.

Definition lower (c : ascii) : ascii :=
  let n := nat_of_ascii c in
  if Nat.leb 65 n && Nat.leb n 90 then ascii_of_nat (n + 32) else c.

Definition hex_value (c : ascii) : option Z :=
  let n := Z.of_nat (nat_of_ascii (lower c)) in
  if (48 <=? n) && (n <=? 57) then Some (n - 48)
  else if (97 <=? n) && (n <=? 102) then Some (n - 87)
  else None.

Definition is_hex (c : ascii) : bool :=
  match hex_value c with Some _ => true | None => false end.

(** Removes [p] from the front of [l], comparing without case. *)
Fixpoint strip_prefix (p l : list ascii) : option (list ascii) :=
  match p, l with
  | [], _ => Some l
  | a :: p', b :: l' =>
      if Ascii.eqb a (lower b) then strip_prefix p' l' else None
  | _ :: _, [] => None
  end.

(** [authorization.match(/^HMAC\s+sha256=([a-f0-9]+)$/i)]: the captured
    group, or [None] when there is no match. *)
Definition parseAuthorizationHeader (auth : string) : option string :=
  match strip_prefix (list_ascii_of_string "hmac") (list_ascii_of_string auth) with
  | Some (c :: rest) =>
      if is_space c then
        match strip_prefix (list_ascii_of_string "sha256=") (skip_space rest) with
        | Some (h :: hs) =>
            if forallb is_hex (h :: hs)
            then Some (string_of_list_ascii (h :: hs)) else None
        | _ => None
        end
      else None
  | _ => None
  end.

(** [validateTimestamp]: the error it throws, if any. *)
Definition validateTimestamp (now : Z) (timestampStr : string) (a : t)
  : option failure :=
  match parseInt timestampStr with
  | None => Some (Failure "Invalid timestamp (must be numeric)"
                          "invalid_timestamp")
  | Some timestamp =>
      let now_s := now / 1000 in
      let diff := Z.abs (now_s - timestamp) in
      if timestampTolerance a <? diff then
        Some (Failure ("Timestamp expired (diff: " +:+ num diff
                       +:+ "s, tolerance: " +:+ num (timestampTolerance a)
                       +:+ "s)") "expired_timestamp")
      else None
  end.

(** [validateNonce]: the error it throws, if any, and the authenticator
    afterwards (the replay check may drop an expired entry).  A comparison
    with NaN is false. *)
Definition validateNonce (now : Z) (nonceStr timestampStr : string) (a : t)
  : option failure * t :=
  match parseInt nonceStr with
  | None =>
      (Some (Failure
               "Invalid nonce (must be numeric Unix epoch in milliseconds)"
               "invalid_nonce"), a)
  | Some nonce =>
      let too_old :=
        match parseInt timestampStr with
        | Some timestamp => nonce <? (timestamp - nonceThreshold a) * 1000
        | None => false
        end in
      let too_new :=
        match parseInt timestampStr with
        | Some timestamp => (timestamp + timestampTolerance a) * 1000 <? nonce
        | None => false
        end in
      if too_old then
        (Some (Failure ("Nonce too old (threshold: "
                        +:+ num (nonceThreshold a) +:+ "s)")
                       "nonce_too_old"), a)
      else if too_new then
        (Some (Failure ("Nonce too new (tolerance: "
                        +:+ num (timestampTolerance a) +:+ "s)")
                       "nonce_too_new"), a)
      else
        let '(seen, c) := NonceCache.has now (NonceCache.Num nonce)
                                         (nonceCache a) in
        let a' := Authenticator (secret a) (timestampTolerance a)
                                (nonceThreshold a) c in
        if seen then
          (Some (Failure "Nonce already used (replay attack detected)"
                         "replay_detected"), a')
        else (None, a')
  end.

Definition buildMessage (method path timestamp nonce body : string) : string :=
  method +:+ path +:+ timestamp +:+ nonce +:+ body.

(** [Buffer.from(s, 'hex')]: pairs of hex digits, up to the first pair that
    is not one. *)
Fixpoint hex_decode (l : list ascii) : list Z :=
  match l with
  | a :: b :: l' =>
      match hex_value a, hex_value b with
      | Some x, Some y => (16 * x + y) :: hex_decode l'
      | _, _ => []
      end
  | _ => []
  end.

(** [verifySignature]: same length and same bytes. *)
Definition verifySignature (provided expected : string) : bool :=
  bool_decide (hex_decode (list_ascii_of_string provided)
               = hex_decode (list_ascii_of_string expected)).

Section WithHmac.

(** [crypto.createHmac('sha256', secret).update(message).digest('hex')] *)
Variable hmac_sha256_hex : string → string → string.

Definition calculateHmac (a : t) (message : string) : string :=
  hmac_sha256_hex (secret a) message.

(** [validateRequest(req)] at time [now] *)
Definition validateRequest (now : Z) (req : request) (a : t) : outcome * t :=
  match extractHeaders req with
  | inl f => (Invalid f, a)
  | inr (auth, timestamp, nonce) =>
      match parseAuthorizationHeader auth with
      | None =>
          (Invalid (Failure
             "Invalid Authorization header format (expected: HMAC sha256=<hex>)"
             "invalid_auth_format"), a)
      | Some signature =>
          match validateTimestamp now timestamp a with
          | Some f => (Invalid f, a)
          | None =>
              match validateNonce now nonce timestamp a with
              | (Some f, a1) => (Invalid f, a1)
              | (None, a1) =>
                  let body := match body req with Some b => b | None => EmptyString end in
                  let message :=
                    buildMessage (method req) (path req) timestamp nonce body in
                  let expectedSignature := calculateHmac a1 message in
                  if verifySignature signature expectedSignature then
                    (Valid,
                     Authenticator (secret a1) (timestampTolerance a1)
                       (nonceThreshold a1)
                       (NonceCache.add now (NonceCache.Str nonce)
                                       (nonceCache a1)))
                  else
                    (Invalid (Failure "Invalid HMAC signature"
                                      "invalid_signature"), a1)
              end
          end
      end
  end.

End WithHmac.

End HmacAuthenticator.

(* ===================================================================== *)
(** ** Concrete situations used in the examples                           *)
(* ===================================================================== *)

Module Scenarios.

(** No variable of the environment is set. *)
Definition env0 : Client.process_env := Client.Env None None None.

Definition at_time (t : Z) : Client.world := Client.World t env0.

(** A client that was created at time 1000 and has seen no event. *)
Definition fresh_client : Client.t :=
  Client.constructor (at_time 1000)
    (Client.Options "abcd"
       (TunnelAgent.constructor (TunnelAgent.Options "abcd" None None))
       (Some "1.2.3.4"%string) None).

(** The same client after its deferred check at 1000, an [online] at 2000
    and an [offline] at 100000: its grace timer is due at 130000. *)
Definition late_offline : Client.t :=
  fst (Client.run [ (at_time 1000, Client.Immediate);
                    (at_time 2000, Client.AgentOnline);
                    (at_time 100000, Client.AgentOffline) ] fresh_client).

Definition from_ip (a : string) : ClientManager.new_options :=
  ClientManager.NewOptions (Some a) None.

(** A manager whose pool is the single port 5000. *)
Definition one_port : ClientManager.t :=
  ClientManager.constructor
    (ClientManager.Options None (Some 5000) (Some 5000)).

(** The port is taken by the tunnel [abcd] of 1.2.3.4, which never connected
    and is in its first grace period. *)
Definition held_in_grace : ClientManager.t :=
  ClientManager.run
    [ ClientManager.NewClient (at_time 1000) "abcd" (from_ip "1.2.3.4")
        "tidy-eel-12" (ClientManager.Resolves 5000);
      ClientManager.ClientEvent (at_time 1000) "abcd" Client.Immediate ]
    one_port.

(** A manager without port range. *)
Definition no_range : ClientManager.t :=
  ClientManager.constructor (ClientManager.Options None None None).

(** The tunnel [abcd] was created at 1000, its first socket connected at
    2000 and closed at 100000. *)
Definition offline_since_100000 : ClientManager.t :=
  ClientManager.run
    [ ClientManager.NewClient (at_time 1000) "abcd" (from_ip "1.2.3.4")
        "tidy-eel-12" (ClientManager.Resolves 40123);
      ClientManager.ClientEvent (at_time 1000) "abcd" Client.Immediate;
      ClientManager.ClientEvent (at_time 2000) "abcd"
        (Client.AgentEvent (TunnelAgent.Connection 1%nat));
      ClientManager.ClientEvent (at_time 100000) "abcd"
        (Client.AgentEvent (TunnelAgent.SocketClose 1%nat)) ]
    no_range.

(** A resolver of host names for the base domain example.com. *)
Definition subdomain_of (hostname : string) : option string :=
  if String.eqb hostname "missing.example.com" then Some "missing"%string
  else if String.eqb hostname "abcd.example.com" then Some "abcd"%string
  else None.

(** A nonce written with a leading zero. *)
Definition padded_nonce : string := "01700000000000".

(** A request [GET /abcd] of the second 1700000000, signed with [digest]. *)
Definition signed_request (digest nonce : string) : HmacAuthenticator.request :=
  HmacAuthenticator.Request (Some ("HMAC sha256=" +:+ digest))
    (Some "1700000000"%string) (Some nonce) "GET" "/abcd" None.

(** The text that is signed for that request. *)
Definition signed_text (nonce : string) : string :=
  HmacAuthenticator.buildMessage "GET" "/abcd" "1700000000" nonce EmptyString.

(** A stand-in for the keyed hash, for examples that need one. *)
Definition toy_digest (key message : string) : string := "00ff".

End Scenarios.

(* ===================================================================== *)
(** * Facts                                                               *)
(* ===================================================================== *)

Section RegexFacts.
Import Regex.

Lemma accepts_Void s : accepts Void s = false.
Proof. induction s as [|c s IH]; simpl; auto. Qed.

Lemma accepts_Alt r1 r2 s :
  accepts (Alt r1 r2) s = accepts r1 s || accepts r2 s.
Proof.
  revert r1 r2; induction s as [|c s IH]; intros r1 r2; simpl; auto.
Qed.

Lemma accepts_Eps s : accepts Eps s = true ↔ s = [].
Proof.
  destruct s as [|c s]; simpl; [tauto|].
  rewrite accepts_Void. split; intros H; discriminate.
Qed.

Lemma accepts_Class p s :
  accepts (Class p) s = true ↔ ∃ c, s = [c] ∧ p c = true.
Proof.
  destruct s as [|c s]; simpl.
  - split; [discriminate | intros (c & H & _); discriminate].
  - destruct (p c) eqn:Hp.
    + rewrite accepts_Eps. split.
      * intros ->. eauto.
      * intros (c' & H & _). congruence.
    + rewrite accepts_Void. split; [discriminate|].
      intros (c' & H & Hc'). congruence.
Qed.

(** Concatenation splits the input. *)
Lemma accepts_Seq r1 r2 s :
  accepts (Seq r1 r2) s = true ↔
  ∃ s1 s2, s = s1 ++ s2 ∧ accepts r1 s1 = true ∧ accepts r2 s2 = true.
Proof.
  revert r1; induction s as [|c s IH]; intros r1; simpl.
  - rewrite andb_true_iff. split.
    + intros [H1 H2]. exists [], []. auto.
    + intros (s1 & s2 & Hs & H1 & H2).
      symmetry in Hs. apply app_eq_nil in Hs as [-> ->]. auto.
  - rewrite accepts_Alt, orb_true_iff, IH. split.
    + intros [(s1 & s2 & -> & H1 & H2) | H].
      * exists (c :: s1), s2. auto.
      * destruct (nullable r1) eqn:Hn; [|by rewrite accepts_Void in H].
        exists [], (c :: s). auto.
    + intros (s1 & s2 & Hs & H1 & H2). destruct s1 as [|c1 s1].
      * right. simpl in Hs, H1. subst s2. rewrite H1. exact H2.
      * left. simpl in Hs. injection Hs as <- ->. exists s1, s2. auto.
Qed.

(** Bounded repetition of a class counts the characters. *)
Lemma accepts_Rep_Class p s : ∀ lo hi,
  accepts (Rep lo hi (Class p)) s = true ↔
  (lo ≤ length s ≤ hi)%nat ∧ forallb p s = true.
Proof.
  induction s as [|c s IH]; intros lo hi.
  - simpl. rewrite orb_false_r, Nat.eqb_eq. split; [intros ->|]; lia.
  - destruct hi as [|hi]; simpl accepts.
    + rewrite accepts_Void. simpl. split; [discriminate | lia].
    + rewrite accepts_Seq. simpl forallb. simpl length.
      rewrite andb_true_iff. split.
      * intros (s1 & s2 & -> & H1 & H2). destruct (p c).
        -- apply accepts_Eps in H1 as ->. apply IH in H2 as [? ?].
           simpl in *. split; [lia | auto].
        -- by rewrite accepts_Void in H1.
      * intros [Hlen [Hc Hs]]. exists [], s. rewrite Hc. simpl.
        split; [done|]. split; [done|]. apply IH. split; [lia | done].
Qed.

(** The language of the subdomain pattern, spelled out: either 4 to 63
    lowercase alphanumerics, or one alphanumeric, 4 to 63 characters that
    may be hyphens, and one alphanumeric (6 to 65 characters in all). *)
Lemma valid_subdomain_spec reqId :
  valid_subdomain reqId = true ↔
  let s := list_ascii_of_string reqId in
  ((4 ≤ length s ≤ 63)%nat ∧ forallb lower_digit s = true) ∨
  (∃ c1 mid c2, s = c1 :: mid ++ [c2] ∧ lower_digit c1 = true ∧
     lower_digit c2 = true ∧ (4 ≤ length mid ≤ 63)%nat ∧
     forallb lower_digit_hyphen mid = true).
Proof.
  unfold valid_subdomain, test, subdomain_re. cbv zeta.
  set (s := list_ascii_of_string reqId). clearbody s.
  rewrite accepts_Alt, orb_true_iff, accepts_Rep_Class, accepts_Seq.
  split.
  - intros [(s1 & s2 & -> & H1 & H2) | H]; [right | by left].
    apply accepts_Class in H1 as (c1 & -> & Hc1).
    apply accepts_Seq in H2 as (mid & s3 & -> & Hmid & H3).
    apply accepts_Class in H3 as (c2 & -> & Hc2).
    apply accepts_Rep_Class in Hmid as [? ?].
    exists c1, mid, c2. auto.
  - intros [H | (c1 & mid & c2 & -> & Hc1 & Hc2 & Hlen & Hmid)];
      [by right | left].
    exists [c1], (mid ++ [c2]). split; [done|]. split.
    + apply accepts_Class. eauto.
    + apply accepts_Seq. exists mid, [c2]. split; [done|]. split.
      * by apply accepts_Rep_Class.
      * apply accepts_Class. eauto.
Qed.

Lemma length_list_ascii (s : string) :
  length (list_ascii_of_string s) = String.length s.
Proof. induction s as [|c s IH]; simpl; congruence. Qed.

(** Every accepted id has between 4 and 65 characters. *)
Lemma valid_subdomain_length reqId :
  valid_subdomain reqId = true →
  (4 ≤ String.length reqId ≤ 65)%nat.
Proof.
  intros H. apply valid_subdomain_spec in H. cbv zeta in H.
  rewrite <- length_list_ascii.
  destruct H as [[H _] | (c1 & mid & c2 & -> & _ & _ & H & _)].
  - lia.
  - simpl. rewrite length_app. simpl. lia.
Qed.

(** C3 (regex bound).  The pattern accepts a 64-character id, which the
    route's comment, its error message and the claim exclude, and it
    rejects the 5-character id [ab-cd], which they allow. *)
Theorem subdomain_regex_off_by_two :
  String.length sixty_four_a = 64%nat ∧
  valid_subdomain sixty_four_a = true ∧
  Server.getById sixty_four_a = Server.MakeClient sixty_four_a ∧
  announced_subdomain sixty_four_a = false ∧
  valid_subdomain "ab-cd" = false ∧
  (∃ message, Server.getById "ab-cd" = Server.Forbidden 403 message) ∧
  announced_subdomain "ab-cd" = true.
Proof.
  split; [reflexivity|]. split; [vm_compute; reflexivity|].
  split; [vm_compute; reflexivity|]. split; [vm_compute; reflexivity|].
  split; [vm_compute; reflexivity|]. split; [|vm_compute; reflexivity].
  eexists. vm_compute. reflexivity.
Qed.

End RegexFacts.

Section TunnelAgentFacts.
Import Text TunnelAgent.

(** A property kept by every handler holds after every run. *)
Lemma run_invariant (P : t → Prop) :
  (∀ e a, P a → P (fst (step e a))) →
  ∀ evs a, P a → P (fst (run evs a)).
Proof.
  intros Hstep evs. induction evs as [|e evs IH]; intros a Ha; simpl; [done|].
  specialize (Hstep e a Ha). destruct (step e a) as [a1 out1]. simpl in Hstep.
  specialize (IH a1 Hstep). destruct (run evs a1) as [a2 out2]. exact IH.
Qed.

Lemma step_maxTcpSockets e a :
  maxTcpSockets (fst (step e a)) = maxTcpSockets a.
Proof.
  destruct e; simpl; unfold _onConnection, onSocketClose, onSocketError,
    createConnection, _onClose, destroy; simpl; try done;
    repeat (case_match; simpl; try done).
Qed.

Lemma step_bounded e a :
  connectedSockets a ≤ maxTcpSockets a →
  connectedSockets (fst (step e a)) ≤ maxTcpSockets (fst (step e a)).
Proof.
  intros H. rewrite step_maxTcpSockets.
  destruct e; simpl; unfold _onConnection, onSocketClose, onSocketError,
    createConnection, _onClose, destroy; simpl; try lia;
    repeat (case_match; simpl; try lia).
Qed.

Lemma run_maxTcpSockets evs a :
  maxTcpSockets (fst (run evs a)) = maxTcpSockets a.
Proof.
  apply (run_invariant (λ b, maxTcpSockets b = maxTcpSockets a)); [|done].
  intros e b Hb. by rewrite step_maxTcpSockets.
Qed.




Lemma dequeued_app out1 out2 :
  dequeued (out1 ++ out2) = dequeued out1 ++ dequeued out2.
Proof. unfold dequeued. apply omap_app. Qed.

Lemma dequeued_flush l :
  dequeued (map (λ conn, Call conn (Some "closed"%string) ArgNull) l) = l.
Proof. induction l as [|x l IH]; simpl; [done|]. unfold dequeued in *. simpl. by f_equal. Qed.

Lemma dequeued_rejection a sock : dequeued (rejection a sock) = [].
Proof. reflexivity. Qed.

(** Queue discipline of one handler: what was waiting plus what the handler
    queued equals what it released followed by what still waits. *)
Lemma step_fifo e a :
  let '(a1, out1) := step e a in
  waitingCreateConn a ++
    match e, out1 with CreateConnection cb, [] => [cb] | _, _ => [] end
  = dequeued out1 ++ waitingCreateConn a1.
Proof.
  destruct e as [s|s|s|cb| |]; simpl.
  - unfold _onConnection.
    destruct (maxTcpSockets a <=? connectedSockets a).
    + rewrite dequeued_rejection. simpl. by rewrite app_nil_r.
    + destruct (waitingCreateConn a) as [|fn rest] eqn:Hw;
        destruct (connectedSockets a =? 0); unfold dequeued; simpl;
        rewrite ?app_nil_r; done.
  - unfold onSocketClose.
    destruct (existsb (Nat.eqb s) (attached a));
      [destruct (connectedSockets a - 1 <=? 0)|];
      unfold dequeued; simpl; by rewrite app_nil_r.
  - unfold onSocketError.
    destruct (existsb (Nat.eqb s) (attached a));
      unfold dequeued; simpl; by rewrite app_nil_r.
  - unfold createConnection. destruct (closed a); simpl.
    + unfold dequeued. simpl. by rewrite app_nil_r.
    + destruct (availableSockets a); unfold dequeued; simpl;
        [done | by rewrite app_nil_r].
  - rewrite dequeued_app, dequeued_flush. unfold dequeued. simpl.
    by rewrite !app_nil_r.
  - unfold dequeued. simpl. by rewrite app_nil_r.
Qed.

Lemma run_fifo evs : ∀ a,
  waitingCreateConn a ++ enqueued evs a
  = dequeued (snd (run evs a)) ++ waitingCreateConn (fst (run evs a)).
Proof.
  induction evs as [|e evs IH]; intros a; simpl.
  - by rewrite app_nil_r.
  - pose proof (step_fifo e a) as Hs.
    destruct (step e a) as [a1 out1]. specialize (IH a1).
    destruct (run evs a1) as [a2 out2]. simpl in *.
    rewrite dequeued_app, <- app_assoc, <- IH, app_assoc, <- Hs.
    rewrite <- app_assoc. f_equal.
    destruct e; try done. destruct out1; done.
Qed.

Lemma step_exclusive e a : exclusive a → exclusive (fst (step e a)).
Proof.
  unfold exclusive. intros H.
  destruct e as [s|s|s|cb| |]; simpl; try done.
  - unfold _onConnection.
    destruct (maxTcpSockets a <=? connectedSockets a); simpl; [done|].
    destruct (waitingCreateConn a) as [|fn rest]; simpl; [done|].
    intros _. by apply H.
  - unfold onSocketClose. case_match; simpl; [|done].
    intros Hw. by rewrite (H Hw).
  - unfold onSocketError. by case_match.
  - unfold createConnection. destruct (closed a); simpl; [done|].
    destruct (availableSockets a) as [|sock rest] eqn:Hav; simpl; [done|].
    intros Hw. specialize (H Hw). discriminate.
Qed.

(** C5.  After any interleaving of [createConnection] calls, incoming
    connections and the other events of a fresh agent: a non-empty waiter
    queue means an empty pool; an accepted socket that finds a waiter goes
    to the head of the queue and not into the pool; [createConnection]
    changes the queue only when the pool is empty; and the callbacks leave
    the queue in the order in which they entered it. *)
Theorem waiters_exclude_pool_fifo (o : options) (evs : list event) :
  let a := fst (run evs (constructor o)) in
  let out := snd (run evs (constructor o)) in
  (waitingCreateConn a ≠ [] → availableSockets a = []) ∧
  (∀ sock fn rest,
      waitingCreateConn a = fn :: rest →
      connectedSockets a < maxTcpSockets a →
      ∃ a' pre, _onConnection sock a = (a', pre ++ [CallLater fn (ArgSocket sock)])
        ∧ dequeued pre = []
        ∧ waitingCreateConn a' = rest
        ∧ availableSockets a' = availableSockets a) ∧
  (∀ cb, waitingCreateConn (fst (createConnection cb a)) ≠ waitingCreateConn a →
      availableSockets a = [] ∧
      waitingCreateConn (fst (createConnection cb a))
        = waitingCreateConn a ++ [cb]) ∧
  enqueued evs (constructor o) = dequeued out ++ waitingCreateConn a.
Proof.
  intros a out. split; [|split; [|split]].
  - apply (run_invariant exclusive); [apply step_exclusive|].
    unfold exclusive. simpl. done.
  - intros sock fn rest Hw Hlt. unfold _onConnection.
    destruct (maxTcpSockets a <=? connectedSockets a) eqn:E; [lia|].
    rewrite Hw. eexists _, _. split; [reflexivity|].
    split; [by destruct (connectedSockets a =? 0)|]. done.
  - intros cb. unfold createConnection. destruct (closed a); simpl; [done|].
    destruct (availableSockets a); simpl; done.
  - pose proof (run_fifo evs (constructor o)) as H. simpl in H. exact H.
Qed.

(** Two requests wait, then two sockets arrive: the first socket goes to
    the first request, and a third request finds the queue still holding
    the order of arrival. *)
Lemma waiters_exclude_pool_fifo_witness :
  let evs := [CreateConnection 7%nat; CreateConnection 8%nat;
              Connection 1%nat; CreateConnection 9%nat] in
  let o := Options "abcd" None None in
  enqueued evs (constructor o) = [7%nat; 8%nat; 9%nat] ∧
  dequeued (snd (run evs (constructor o))) = [7%nat] ∧
  waitingCreateConn (fst (run evs (constructor o))) = [8%nat; 9%nat] ∧
  availableSockets (fst (run evs (constructor o))) = [].
Proof.
  intros evs o.
  destruct (waiters_exclude_pool_fifo o evs) as (Hexcl & _ & _ & Hfifo).
  split; [reflexivity|]. split; [reflexivity|]. split; [reflexivity|].
  apply Hexcl. discriminate.
Defined.

End TunnelAgentFacts.

Section ClientFacts.
Import Text Client Scenarios.


Lemma with_agent_same c : with_agent (agent c) c = c.
Proof. by destruct c. Qed.

Lemma close_spec c :
  close c = (_clearGracePeriod c,
             [AgentEffect TunnelAgent.ServerClose; EmitClose]).
Proof.
  unfold close, TunnelAgent.destroy. simpl. by rewrite with_agent_same.
Qed.



Lemma _clearGracePeriod_isOnline c :
  isOnline (_clearGracePeriod c) = isOnline c.
Proof. unfold _clearGracePeriod. by destruct (graceTimeout c). Qed.




(** The first timeout is set when the client is created: then, and as long
    as the environment keeps the grace period, the answer of
    [getGracePeriodRemaining] is the time left on that timeout. *)
Lemma grace_remaining_exact_first_arm w0 w o :
  now w0 ≠ 0 → env w = env w0 →
  1 ≤ getGracePeriod (env w0) ≤ 2147483647 →
  let c := onImmediate w0 (constructor w0 o) in
  now w ≤ now w0 + getGracePeriod (env w0) →
  Some (getGracePeriodRemaining w c) = untilClose w c.
Proof.
  intros Hnz Henv Hrange c Hnow. subst c.
  unfold onImmediate, constructor, getGracePeriodRemaining, untilClose,
    _setGracePeriod, getGracePeriodValue, delay. simpl.
  rewrite Henv. apply Z.eqb_neq in Hnz. rewrite Hnz.
  destruct (getGracePeriod (env w0) <? 1) eqn:E1; [lia|].
  destruct (2147483647 <? getGracePeriod (env w0)) eqn:E2; [lia|].
  simpl. f_equal. lia.
Qed.

End ClientFacts.

Section ClientManagerFacts.
Import Text ClientManager Scenarios.

Lemma agent_step_port e a :
  TunnelAgent.port (fst (TunnelAgent.step e a)) = TunnelAgent.port a.
Proof.
  destruct e; simpl; unfold TunnelAgent._onConnection,
    TunnelAgent.onSocketClose, TunnelAgent.onSocketError,
    TunnelAgent.createConnection, TunnelAgent._onClose, TunnelAgent.destroy;
    simpl; try done; repeat (case_match; simpl; try done).
Qed.

Lemma _clearGracePeriod_agent c :
  Client.agent (Client._clearGracePeriod c) = Client.agent c.
Proof. unfold Client._clearGracePeriod. by destruct (Client.graceTimeout c). Qed.

Lemma deliver_agent w out : ∀ c,
  Client.agent (Client.deliver w out c) = Client.agent c.
Proof.
  induction out as [|e out IH]; intros c; simpl; [done|].
  destruct e as [[| |]| | | | | |]; rewrite IH; try done.
  - unfold Client.onOnline. by rewrite _clearGracePeriod_agent.
  - unfold Client.onOffline, Client._setGracePeriod. simpl.
    by rewrite _clearGracePeriod_agent.
Qed.

Lemma close_agent c : Client.agent (fst (Client.close c)) = Client.agent c.
Proof. rewrite close_spec. simpl. apply _clearGracePeriod_agent. Qed.

(** No event of a client changes the port its agent was built with. *)
Lemma client_step_port w e c :
  TunnelAgent.port (Client.agent (fst (Client.step w e c)))
  = TunnelAgent.port (Client.agent c).
Proof.
  destruct e as [ae| | | | |h|]; cbn [Client.step fst].
  - pose proof (agent_step_port ae (Client.agent c)) as H.
    destruct (TunnelAgent.step ae (Client.agent c)) as [a out]. simpl in *.
    by rewrite deliver_agent.
  - unfold Client.onOnline. by rewrite _clearGracePeriod_agent.
  - unfold Client.onOffline, Client._setGracePeriod. simpl.
    by rewrite _clearGracePeriod_agent.
  - unfold Client.onError. destruct (Client.errorListener c); [|done].
    by rewrite close_agent.
  - unfold Client.onImmediate. destruct (Client.immediate c); [|done].
    simpl. by destruct (Client.isOnline c).
  - unfold Client.onTimeout. case_match; [|done]. by rewrite close_agent.
  - by rewrite close_agent.
Qed.

Lemma initial_ports_NoDup lo hi : NoDup (initial_ports lo hi).
Proof.
  unfold initial_ports. destruct lo, hi; try constructor.
  case_match; [apply NoDup_seqZ | constructor].
Qed.

Lemma partition_NoDup m :
  pool_partition m → NoDup (availablePorts m ++ elements (usedPorts m)).
Proof.
  intros H. unfold pool_partition in H. rewrite H. apply initial_ports_NoDup.
Qed.

Lemma constructor_inv o : inv (constructor o).
Proof.
  split; [|split].
  - unfold pool_partition. simpl. rewrite elements_empty. by rewrite app_nil_r.
  - intros id p H. unfold port_of in H. simpl in H.
    by rewrite lookup_empty in H.
  - intros id1 id2 p H. unfold port_of in H. simpl in H.
    by rewrite lookup_empty in H.
Qed.

(** [_getPort] either fails on an empty configured pool, or moves the head of
    the available list into the used set. *)
Lemma _getPort_spec m :
  pool_partition m →
  match _getPort m with
  | inl e => e = NoAvailablePorts ∧ availablePorts m = [] ∧
             range_configured m = true
  | inr (m', port) =>
      pool_partition m' ∧ clients m' = clients m ∧ tunnels m' = tunnels m ∧
      opt m' = opt m ∧
      usedPorts m ⊆ usedPorts m' ∧
      match port with
      | Some p => (p ∉ usedPorts m) ∧ p ∈ usedPorts m'
      | None => m' = m
      end
  end.
Proof.
  intros Hp. unfold _getPort.
  destruct (availablePorts m) as [|p rest] eqn:Hav.
  - destruct (range_configured m); [done|].
    repeat split; try done.
  - pose proof (partition_NoDup m Hp) as Hnd. rewrite Hav in Hnd.
    simpl in Hnd. apply NoDup_cons in Hnd as [Hnotin _].
    assert (p ∉ usedPorts m) as Hfresh.
    { intros Hin. apply Hnotin, elem_of_app. right.
      by apply elem_of_elements. }
    split; [|repeat split; try done; set_solver].
    unfold pool_partition in *. simpl. rewrite Hav in Hp.
    rewrite elements_union_singleton by done.
    rewrite <- Permutation_middle. exact Hp.
Qed.

Lemma _releasePort_spec port m :
  pool_partition m →
  let m' := _releasePort port m in
  pool_partition m' ∧ clients m' = clients m ∧ tunnels m' = tunnels m ∧
  opt m' = opt m ∧
  (usedPorts m' = usedPorts m ∨
   ∃ p, port = Some p ∧ usedPorts m' = usedPorts m ∖ {[p]}).
Proof.
  intros Hp. cbv zeta. unfold _releasePort.
  destruct port as [p|]; [|by repeat split; auto].
  case_match; [by repeat split; auto|].
  case_bool_decide as Hin; [|by repeat split; auto].
  split; [|by repeat split; eauto].
  unfold pool_partition in *. simpl. rewrite <- Hp.
  rewrite (union_difference_singleton_L p (usedPorts m)) at 2 by done.
  rewrite elements_union_singleton by set_solver.
  rewrite <- app_assoc. simpl. done.
Qed.


Lemma _releasePort_used p m :
  p ∈ usedPorts m → p ≠ 0 → range_configured m = true →
  _releasePort (Some p) m
  = with_ports (availablePorts m ++ [p]) (usedPorts m ∖ {[p]}) m.
Proof.
  intros Hin Hp0 Hrc. unfold range_configured in Hrc.
  apply andb_true_iff in Hrc as [Hrs Hre].
  assert (truthy (Some p) = true) as Htp.
  { unfold truthy. apply Z.eqb_neq in Hp0. by rewrite Hp0. }
  unfold _releasePort. rewrite Htp, Hrs, Hre. simpl.
  by rewrite bool_decide_true by done.
Qed.

Lemma port_of_delete id id' cs n m :
  port_of (with_clients (delete id cs) n m) id'
  = if decide (id = id') then None
    else port_of (with_clients cs n m) id'.
Proof.
  unfold port_of. simpl. rewrite lookup_delete. by case_decide.
Qed.

Lemma removeClient_inv id m : inv m → inv (fst (removeClient id m)).
Proof.
  intros (Hp & Hu & Hd). unfold removeClient.
  destruct (clients m !! id) as [client|] eqn:Hc; [|done].
  destruct (Client.close client) as [c' out]. simpl.
  set (port := TunnelAgent.port (Client.agent client)).
  destruct (_releasePort_spec port m Hp) as (Hp' & Hcs & _ & _ & Hused).
  split; [exact Hp' | split].
  - intros id' p. rewrite port_of_delete. case_decide as Hne; [done|].
    unfold port_of. simpl. rewrite Hcs. intros H.
    assert (port_of m id' = Some p) as Hpo by exact H.
    destruct Hused as [-> | (q & Hq & ->)]; [by eapply Hu|].
    apply elem_of_difference. split; [by eapply Hu|].
    intros ->%elem_of_singleton. apply Hne.
    apply (Hd id id' q); [|done]. unfold port_of. by rewrite Hc.
  - intros id1 id2 p. rewrite !port_of_delete.
    repeat case_decide; try done. unfold port_of. simpl. rewrite Hcs.
    apply Hd.
Qed.

Lemma removeClient_ranges id m :
  portRangeStart (fst (removeClient id m)) = portRangeStart m ∧
  portRangeEnd (fst (removeClient id m)) = portRangeEnd m ∧
  opt (fst (removeClient id m)) = opt m.
Proof.
  unfold removeClient. destruct (clients m !! id) as [client|]; [|done].
  destruct (Client.close client). simpl. unfold _releasePort.
  repeat case_match; done.
Qed.

Lemma inv_ext m m' :
  availablePorts m' = availablePorts m → usedPorts m' = usedPorts m →
  portRangeStart m' = portRangeStart m → portRangeEnd m' = portRangeEnd m →
  (∀ id, port_of m' id = port_of m id) →
  inv m → inv m'.
Proof.
  intros Ha Hu Hs He Hpo (Hp & Hus & Hd). split; [|split].
  - unfold pool_partition. by rewrite Ha, Hu, Hs, He.
  - intros id p. rewrite Hpo, Hu. apply Hus.
  - intros id1 id2 p. rewrite !Hpo. apply Hd.
Qed.

Lemma resolve_id_inv w id ident rnd m m1 id1 out1 :
  inv m → resolve_id w id ident rnd m = inr (m1, id1, out1) → inv m1.
Proof.
  intros Hinv. unfold resolve_id.
  pose proof (removeClient_inv id m Hinv) as Hrm.
  destruct (removeClient id m) as [mr outr]. simpl in Hrm.
  destruct (clients m !! id) as [existing|]; [|by intros [= <- _ _]].
  repeat case_match; intros [= <- _ _]; done.
Qed.

Lemma port_of_insert id c cs n m id' :
  port_of (with_clients (<[id := c]> cs) n m) id'
  = if decide (id = id') then TunnelAgent.port (Client.agent c)
    else port_of (with_clients cs n m) id'.
Proof.
  unfold port_of. simpl. rewrite lookup_insert. by case_decide.
Qed.

Lemma newClient_begin_inv w id o rnd m :
  inv m → inv (state (newClient_begin w id o rnd m)).
Proof.
  intros Hinv. unfold newClient_begin.
  destruct (resolve_id w id (caller_identifier o) rnd m)
    as [e | [[m1 id1] out1]] eqn:Hres; [done|].
  pose proof (resolve_id_inv _ _ _ _ _ _ _ _ Hinv Hres) as (Hp1 & Hu1 & Hd1).
  pose proof (_getPort_spec m1 Hp1) as Hget.
  destruct (_getPort m1) as [e | [m2 port]]; [done|].
  destruct Hget as (Hp2 & Hcs & _ & _ & Hsub & Hport). simpl.
  split; [exact Hp2 | split].
  - intros id' p. rewrite port_of_insert. case_decide as Hid.
    + simpl. intros ->. by destruct Hport.
    + unfold port_of. simpl. rewrite Hcs. intros H.
      apply Hsub. by apply (Hu1 id' p).
  - assert (∀ id' p, port_of m1 id' = Some p → port = Some p → False)
      as Hfresh.
    { intros id' p H ->. destruct Hport as [Hn _]. apply Hn.
      by apply (Hu1 id' p). }
    intros ia ib p. rewrite !port_of_insert.
    unfold port_of at 1 2. simpl. rewrite Hcs.
    repeat case_decide; subst; try done.
    + intros Ha Hb. exfalso. by eapply Hfresh.
    + intros Ha Hb. exfalso. by eapply Hfresh.
    + apply Hd1.
Qed.

Lemma newClient_settle_inv l p m :
  inv m → inv (final (newClient_settle l p m)).
Proof.
  intros Hinv. unfold newClient_settle. destruct l as [port|msg].
  - simpl. by apply (inv_ext m).
  - pose proof (removeClient_inv (pend_id p) m Hinv) as H.
    by destruct (removeClient (pend_id p) m).
Qed.

Lemma newClient_inv w id o rnd l m :
  inv m → inv (final (newClient w id o rnd l m)).
Proof.
  intros Hinv. unfold newClient.
  pose proof (newClient_begin_inv w id o rnd m Hinv) as Hb.
  destruct (ret (newClient_begin w id o rnd m)); [done|].
  simpl. by apply newClient_settle_inv.
Qed.

Lemma clientEvent_inv w id e m :
  inv m → inv (fst (clientEvent w id e m)).
Proof.
  intros Hinv. unfold clientEvent.
  destruct (clients m !! id) as [c|] eqn:Hc; [|done].
  pose proof (client_step_port w e c) as Hport.
  destruct (Client.step w e c) as [c1 out]. simpl in Hport.
  assert (inv (with_clients (<[id := c1]> (clients m)) (tunnels m) m))
    as Hinv1.
  { apply (inv_ext m); try done. intros id'. rewrite port_of_insert.
    case_decide as Hid; [|done]. subst. unfold port_of. by rewrite Hc. }
  destruct (Nat.ltb 0 (Client.closes out)); [|done].
  pose proof (removeClient_inv id _ Hinv1) as H.
  by destruct (removeClient id _).
Qed.

Lemma apply_inv o m : inv m → inv (apply o m).
Proof.
  destruct o; simpl.
  - apply newClient_inv.
  - apply newClient_begin_inv.
  - apply newClient_settle_inv.
  - apply removeClient_inv.
  - apply clientEvent_inv.
Qed.

Lemma run_inv ops : ∀ m, inv m → inv (run ops m).
Proof.
  unfold run. induction ops as [|o ops IH]; intros m Hinv; simpl; [done|].
  by apply IH, apply_inv.
Qed.

Lemma _getPort_ranges m m' port :
  _getPort m = inr (m', port) →
  portRangeStart m' = portRangeStart m ∧ portRangeEnd m' = portRangeEnd m.
Proof.
  unfold _getPort. destruct (availablePorts m).
  - destruct (range_configured m); [done|]. by intros [= <- _].
  - by intros [= <- _].
Qed.

Lemma resolve_id_ranges w id ident rnd m m1 id1 out1 :
  resolve_id w id ident rnd m = inr (m1, id1, out1) →
  portRangeStart m1 = portRangeStart m ∧ portRangeEnd m1 = portRangeEnd m.
Proof.
  unfold resolve_id. pose proof (removeClient_ranges id m) as (Hs & He & _).
  destruct (removeClient id m) as [mr outr]. simpl in *.
  destruct (clients m !! id) as [existing|]; [|by intros [= <- _ _]].
  repeat case_match; intros [= <- _ _]; done.
Qed.

Lemma newClient_begin_ranges w id no rnd m :
  portRangeStart (state (newClient_begin w id no rnd m)) = portRangeStart m ∧
  portRangeEnd (state (newClient_begin w id no rnd m)) = portRangeEnd m.
Proof.
  unfold newClient_begin.
  destruct (resolve_id w id (caller_identifier no) rnd m)
    as [e | [[m1 id1] out1]] eqn:Hres; [done|].
  apply resolve_id_ranges in Hres as [Hs He].
  destruct (_getPort m1) as [e | [m2 port]] eqn:Hget; [done|].
  apply _getPort_ranges in Hget as [Hs2 He2]. simpl.
  by rewrite <- Hs, <- He.
Qed.

Lemma newClient_settle_ranges l p m :
  portRangeStart (final (newClient_settle l p m)) = portRangeStart m ∧
  portRangeEnd (final (newClient_settle l p m)) = portRangeEnd m.
Proof.
  unfold newClient_settle. destruct l as [port|msg]; [done|].
  pose proof (removeClient_ranges (pend_id p) m) as (Hs & He & _).
  by destruct (removeClient (pend_id p) m).
Qed.

Lemma apply_ranges o m :
  portRangeStart (apply o m) = portRangeStart m ∧
  portRangeEnd (apply o m) = portRangeEnd m.
Proof.
  destruct o as [w id no rnd l | w id no rnd | l p | id | w id e]; simpl.
  - unfold newClient.
    pose proof (newClient_begin_ranges w id no rnd m) as [Hs He].
    destruct (ret (newClient_begin w id no rnd m)) as [e|p]; [done|].
    cbn [final].
    destruct (newClient_settle_ranges l p
                (state (newClient_begin w id no rnd m))) as [-> ->].
    done.
  - apply newClient_begin_ranges.
  - apply newClient_settle_ranges.
  - by destruct (removeClient_ranges id m) as (? & ? & _).
  - unfold clientEvent. destruct (clients m !! id) as [c|]; [|done].
    destruct (Client.step w e c) as [c1 out].
    destruct (Nat.ltb 0 (Client.closes out)); [|done].
    match goal with |- context [removeClient ?i ?x] =>
      pose proof (removeClient_ranges i x) as (Hs3 & He3 & _);
      destruct (removeClient i x) end.
    done.
Qed.

Lemma run_ranges ops : ∀ m,
  portRangeStart (run ops m) = portRangeStart m ∧
  portRangeEnd (run ops m) = portRangeEnd m.
Proof.
  unfold run. induction ops as [|o ops IH]; intros m; simpl; [done|].
  destruct (IH (apply o m)) as [-> ->]. apply apply_ranges.
Qed.

Lemma removeClient_Some id m c :
  clients m !! id = Some c →
  removeClient id m =
    (let m1 := _releasePort (TunnelAgent.port (Client.agent c)) m in
     with_clients (delete id (clients m1)) (tunnels m1 - 1) m1,
     [ClientEffect id (Client.AgentEffect TunnelAgent.ServerClose);
      ClientEffect id Client.EmitClose]).
Proof.
  intros Hc. unfold removeClient. rewrite Hc. by rewrite close_spec.
Qed.

Lemma removeClient_lookup id m : clients (fst (removeClient id m)) !! id = None.
Proof.
  unfold removeClient. destruct (clients m !! id) as [c|] eqn:Hc; [|done].
  destruct (Client.close c). simpl. apply lookup_delete_eq.
Qed.







Lemma removeClient_configured id m :
  range_configured (fst (removeClient id m)) = range_configured m.
Proof.
  destruct (removeClient_ranges id m) as (Hs & He & _).
  unfold range_configured. by rewrite Hs, He.
Qed.

Lemma removeClient_assigned id m :
  ports_assigned m → ports_assigned (fst (removeClient id m)).
Proof.
  intros Ha Hrc. rewrite removeClient_configured in Hrc.
  specialize (Ha Hrc). unfold removeClient.
  destruct (clients m !! id) as [c|] eqn:Hc; [|exact Ha].
  destruct (Client.close c) as [c' out']. simpl.
  assert (∀ q x, clients (_releasePort q x) = clients x) as Hrel.
  { intros q x. unfold _releasePort. repeat case_match; done. }
  intros id'. rewrite port_of_delete. unfold port_of. simpl.
  rewrite Hrel, lookup_delete. case_decide; [by intros [? ?]|]. apply Ha.
Qed.

Lemma newClient_begin_assigned w id o rnd m :
  ports_assigned m → ports_assigned (state (newClient_begin w id o rnd m)).
Proof.
  intros Ha. unfold newClient_begin.
  destruct (resolve_id w id (caller_identifier o) rnd m)
    as [e | [[m1 id1] out1]] eqn:Hres; [done|].
  assert (ports_assigned m1) as Ha1.
  { unfold resolve_id in Hres.
    pose proof (removeClient_assigned id m Ha) as Hrm.
    destruct (removeClient id m) as [mr outr]. simpl in Hrm.
    destruct (clients m !! id); [|by injection Hres as <- _ _].
    repeat case_match; try done; by injection Hres as <- _ _. }
  destruct (_getPort m1) as [e | [m2 port]] eqn:Hget; [done|]. simpl.
  destruct (_getPort_ranges _ _ _ Hget) as [Hs He].
  intros Hrc. unfold range_configured in Hrc. simpl in Hrc.
  rewrite Hs, He in Hrc. fold (range_configured m1) in Hrc.
  specialize (Ha1 Hrc). unfold _getPort in Hget.
  intros id'. rewrite port_of_insert. unfold port_of. simpl.
  rewrite lookup_insert. case_decide as Hid.
  - intros _. simpl. destruct (availablePorts m1).
    + rewrite Hrc in Hget. discriminate.
    + injection Hget as _ <-. eauto.
  - assert (clients m2 = clients m1) as ->.
    { destruct (availablePorts m1); [rewrite Hrc in Hget; discriminate|].
      by injection Hget as <- _. }
    apply Ha1.
Qed.

Lemma newClient_settle_assigned l p m :
  ports_assigned m → ports_assigned (final (newClient_settle l p m)).
Proof.
  intros Ha. unfold newClient_settle. destruct l as [port|msg]; [done|].
  pose proof (removeClient_assigned (pend_id p) _ Ha) as Hrm.
  by destruct (removeClient (pend_id p) _).
Qed.

Lemma apply_assigned o m : ports_assigned m → ports_assigned (apply o m).
Proof.
  intros Ha.
  destruct o as [w id no rnd l | w id no rnd | l p | id | w id e]; simpl.
  - unfold newClient.
    pose proof (newClient_begin_assigned w id no rnd m Ha) as Hb.
    destruct (ret (newClient_begin w id no rnd m)) as [e|p]; [done|].
    cbn [final]. by apply newClient_settle_assigned.
  - by apply newClient_begin_assigned.
  - by apply newClient_settle_assigned.
  - by apply removeClient_assigned.
  - unfold clientEvent. destruct (clients m !! id) as [c|] eqn:Hc; [|done].
    pose proof (client_step_port w e c) as Hport.
    destruct (Client.step w e c) as [c1 out]. simpl in Hport.
    assert (ports_assigned (with_clients (<[id := c1]> (clients m))
                                         (tunnels m) m)) as Ha1.
    { intros Hrc id'. specialize (Ha Hrc id'). rewrite port_of_insert.
      simpl. rewrite lookup_insert. unfold port_of in *.
      case_decide as Hid; [|done]. subst. rewrite Hc in Ha.
      intros _. rewrite Hport. by apply Ha. }
    destruct (Nat.ltb 0 (Client.closes out)); [|done].
    pose proof (removeClient_assigned id _ Ha1) as Hrm.
    by destruct (removeClient id _).
Qed.

Lemma run_assigned ops : ∀ m, ports_assigned m → ports_assigned (run ops m).
Proof.
  unfold run. induction ops as [|o ops IH]; intros m Ha; simpl; [done|].
  by apply IH, apply_assigned.
Qed.

(** In every state that the manager reaches, with a range that starts above
    zero or no range at all, removing a registered client leaves a port to
    take: the reconnection of C1 then fails only if [listen] rejects. *)
Lemma reconnect_finds_port (o : options) (ops : list op) (id : string)
    (c : Client.t) :
  match opt_portRangeStart o with Some lo => 0 ≤ lo | None => True end →
  clients (run ops (constructor o)) !! id = Some c →
  ∃ m1 port,
    _getPort (fst (removeClient id (run ops (constructor o)))) = inr (m1, port).
Proof.
  intros Hsane Hc. set (m := run ops (constructor o)) in *.
  pose proof (run_inv ops (constructor o) (constructor_inv o))
    as (Hp & Hu & _).
  assert (ports_assigned m) as Ha.
  { apply run_assigned. intros _ id'. simpl. rewrite lookup_empty.
    by intros [? ?]. }
  destruct (run_ranges ops (constructor o)) as [Hs He].
  fold m in Hp, Hu, Hs, He. simpl in Hs, He.
  rewrite (removeClient_Some id m c Hc). cbn [fst].
  destruct (range_configured m) eqn:Hrc.
  - destruct (Ha Hrc id) as [p Hpo]; [eauto|].
    pose proof (Hu id p Hpo) as Hused.
    unfold port_of in Hpo. rewrite Hc in Hpo. rewrite Hpo.
    assert (p ≠ 0) as Hp0.
    { assert (p ∈ availablePorts m ++ elements (usedPorts m)) as Hin.
      { apply elem_of_app. right. by apply elem_of_elements. }
      unfold pool_partition in Hp. rewrite Hp, Hs, He in Hin.
      unfold range_configured in Hrc. rewrite Hs, He in Hrc.
      unfold initial_ports in Hin.
      destruct (opt_portRangeStart o) as [lo|]; [|done].
      destruct (opt_portRangeEnd o) as [hi|];
        [|by rewrite andb_false_r in Hrc].
      rewrite Hrc in Hin. apply elem_of_seqZ in Hin.
      apply andb_true_iff in Hrc as [Hlo _]. unfold truthy in Hlo.
      apply negb_true_iff, Z.eqb_neq in Hlo. lia. }
    rewrite (_releasePort_used p m Hused Hp0 Hrc).
    unfold _getPort. simpl.
    destruct (availablePorts m); simpl; by eexists _, _.
  - assert (∀ q, _releasePort q m = m) as Hrel.
    { intros [q|]; [|done]. unfold _releasePort, range_configured in *.
      apply andb_false_iff in Hrc as [-> | ->]; simpl;
        by rewrite ?orb_true_r. }
    rewrite Hrel. unfold _getPort. simpl.
    assert (availablePorts m = []) as ->.
    { unfold pool_partition in Hp.
      assert (initial_ports (portRangeStart m) (portRangeEnd m) = []) as Hnil.
      { unfold initial_ports, range_configured in *.
        destruct (portRangeStart m), (portRangeEnd m); try done.
        by rewrite Hrc. }
      rewrite Hnil in Hp. apply Permutation_nil_r in Hp.
      by apply app_eq_nil in Hp as [? _]. }
    unfold range_configured in *. simpl. rewrite Hrc. by eexists _, _.
Qed.

(** When the grace timer of a registered client fires, the client closes,
    the manager's listener removes it and closes it once more: [close] is
    emitted twice, the entry is gone and the port is back in the pool. *)
Lemma grace_expiry_in_manager :
  let r := clientEvent (at_time 31000) "abcd" (Client.Timeout 0%nat)
             held_in_grace in
  snd r = [ClientEffect "abcd" (Client.AgentEffect TunnelAgent.ServerClose);
           ClientEffect "abcd" Client.EmitClose;
           ClientEffect "abcd" (Client.AgentEffect TunnelAgent.ServerClose);
           ClientEffect "abcd" Client.EmitClose] ∧
  hasClient "abcd" (fst r) = false ∧
  availablePorts (fst r) = [5000] ∧
  tunnels (fst r) = 0.
Proof. vm_compute. repeat split. Qed.

(** C9.  The registry holds the new client before [listen] settles; when
    [listen] rejects, the entry is removed and the error rethrown, but the
    counter of tunnels, which was never raised for this client, is lowered:
    on a new manager it ends at -1. *)
Theorem listen_failure_lowers_tunnels :
  let b := newClient_begin (at_time 1000) "abcd" (from_ip "1.2.3.4")
             "tidy-eel-12" no_range in
  let s := newClient (at_time 1000) "abcd" (from_ip "1.2.3.4")
             "tidy-eel-12" (Rejects "listen failed") no_range in
  tunnels no_range = 0 ∧
  hasClient "abcd" (state b) = true ∧
  result s = inl (ListenFailed "listen failed") ∧
  hasClient "abcd" (final s) = false ∧
  tunnels (final s) = -1.
Proof. vm_compute. repeat split. Qed.

(** In general: the client is registered before the [await], and a
    rejection removes it and lowers the counter by one. *)
Lemma newClient_registers_before_listen w id no rnd m p :
  ret (newClient_begin w id no rnd m) = inr p →
  is_Some (clients (state (newClient_begin w id no rnd m)) !! pend_id p) ∧
  tunnels (final (newClient_settle (Rejects "e") p
                    (state (newClient_begin w id no rnd m))))
  = tunnels (state (newClient_begin w id no rnd m)) - 1 ∧
  clients (final (newClient_settle (Rejects "e") p
                    (state (newClient_begin w id no rnd m)))) !! pend_id p
  = None.
Proof.
  unfold newClient_begin.
  destruct (resolve_id w id (caller_identifier no) rnd m)
    as [e | [[m1 id1] out1]]; [done|].
  destruct (_getPort m1) as [e | [m2 port]]; [done|].
  cbn [ret state]. intros [= <-]. cbn [pend_id].
  split; [simpl; rewrite lookup_insert_eq; eauto|].
  unfold newClient_settle. cbn [pend_id].
  erewrite removeClient_Some; [|simpl; apply lookup_insert_eq].
  cbn [final]. split.
  - simpl. unfold _releasePort. repeat case_match; done.
  - simpl. apply lookup_delete_eq.
Qed.

End ClientManagerFacts.

Section ServerFacts.
Import Text Server Scenarios.

(** C2.  [getGracePeriodRemaining] subtracts the age of the client, counted
    from its creation, from the grace period; the timer runs from the moment
    it was set.  For a client created at 1000 that went offline at 100000
    the timer is due in 30000 ms, the method answers 0, and the public
    front-end sends [Retry-After: 0]. *)
Theorem grace_remaining_counts_from_creation :
  let w := at_time 100000 in
  Client.isOnline late_offline = false ∧
  Client.graceTimeout late_offline = Some 1%nat ∧
  Client.untilClose w late_offline = Some 30000 ∧
  Client.closes (snd (Client.onTimeout 1%nat late_offline)) = 1%nat ∧
  Client.getGracePeriodRemaining w late_offline = 0 ∧
  (∃ c, ClientManager.getClient "abcd" offline_since_100000 = Some c ∧
        Client.isOnline c = false ∧
        Client.untilClose w c = Some 30000 ∧
        Client.getGracePeriodRemaining w c = 0) ∧
  onRequest subdomain_of None w offline_since_100000
    (Request "/" (Some "abcd.example.com"%string))
  = Ended 503 "Service Temporarily Unavailable" (Some "0"%string).
Proof.
  cbv zeta. repeat split; try (vm_compute; reflexivity).
  eexists. split; [vm_compute; reflexivity|]. repeat split.
Qed.




End ServerFacts.

Section HmacFacts.
Import Text HmacAuthenticator Scenarios.

Lemma nonempty_Some s : s ≠ EmptyString → nonempty (Some s) = Some s.
Proof. by destruct s. Qed.

Lemma parseAuthorizationHeader_hex digest :
  digest ≠ EmptyString →
  forallb is_hex (list_ascii_of_string digest) = true →
  parseAuthorizationHeader ("HMAC sha256=" +:+ digest) = Some digest.
Proof.
  intros Hne Hhex. unfold parseAuthorizationHeader. simpl.
  destruct digest as [|c d]; [done|]. simpl in *.
  rewrite Hhex. by rewrite string_of_list_ascii_of_string.
Qed.

Lemma verifySignature_refl s : verifySignature s s = true.
Proof. unfold verifySignature. by apply bool_decide_true. Qed.

Lemma validateNonce_fields now nonce ts a f a1 :
  validateNonce now nonce ts a = (f, a1) →
  secret a1 = secret a ∧ timestampTolerance a1 = timestampTolerance a ∧
  nonceThreshold a1 = nonceThreshold a.
Proof.
  unfold validateNonce. destruct (parseInt nonce) as [n|]; [|by intros [= _ <-]].
  repeat case_match; intros [= _ <-]; done.
Qed.

(** A request that carries the digest of its own text passes when its
    timestamp and its nonce pass, and its nonce, as sent, enters the cache. *)
Lemma validateRequest_signed hmac now a a1 ts nonce meth pth :
  let digest := hmac (secret a) (buildMessage meth pth ts nonce EmptyString) in
  digest ≠ EmptyString →
  forallb is_hex (list_ascii_of_string digest) = true →
  ts ≠ EmptyString → nonce ≠ EmptyString →
  validateTimestamp now ts a = None →
  validateNonce now nonce ts a = (None, a1) →
  validateRequest hmac now
    (Request (Some ("HMAC sha256=" +:+ digest)) (Some ts) (Some nonce)
             meth pth None) a
  = (Valid,
     Authenticator (secret a1) (timestampTolerance a1) (nonceThreshold a1)
       (NonceCache.add now (NonceCache.Str nonce) (nonceCache a1))).
Proof.
  intros digest Hne Hhex Hts Hnonce Htime Hn.
  unfold validateRequest, extractHeaders.
  cbn [authorization x_timestamp x_nonce method path body].
  assert ("HMAC sha256=" +:+ digest ≠ EmptyString) as Hauth by done.
  rewrite (nonempty_Some _ Hauth), (nonempty_Some _ Hts),
    (nonempty_Some _ Hnonce).
  rewrite (parseAuthorizationHeader_hex digest Hne Hhex), Htime, Hn.
  unfold calculateHmac.
  destruct (validateNonce_fields _ _ _ _ _ _ Hn) as (-> & _ & _).
  fold digest. by rewrite verifySignature_refl.
Qed.

(** C7.  The replay check looks up the decimal form of the parsed nonce,
    while the cache receives the header text.  With the header
    [01700000000000] the two differ: for any keyed hash whose digest of the
    request text is a non-empty hex string, the signed request is accepted,
    its nonce is cached, and the same request sent again five seconds later
    is accepted again. *)
Theorem padded_nonce_replay_accepted (hmac : string → string → string)
    (loadedSecret : string) :
  let digest := hmac loadedSecret (signed_text padded_nonce) in
  digest ≠ EmptyString →
  forallb is_hex (list_ascii_of_string digest) = true →
  let a0 := constructor loadedSecret (Options None None None) in
  let req := signed_request digest padded_nonce in
  ∃ a1 a2,
    validateRequest hmac 1700000000000 req a0 = (Valid, a1) ∧
    NonceCache.cache (nonceCache a1) !! padded_nonce = Some 1700007200000 ∧
    validateRequest hmac 1700000005000 req a1 = (Valid, a2).
Proof.
  intros digest Hne Hhex a0 req.
  set (a1 := Authenticator loadedSecret 60 3600
               (NonceCache.add 1700000000000 (NonceCache.Str padded_nonce)
                               (NonceCache.constructor 7200))).
  assert (validateNonce 1700000000000 padded_nonce "1700000000" a0
          = (None, a0)) as Hn0 by (vm_compute; reflexivity).
  assert (validateNonce 1700000005000 padded_nonce "1700000000" a1
          = (None, a1)) as Hn1 by (vm_compute; reflexivity).
  pose proof (validateRequest_signed hmac 1700000000000 a0 a0 "1700000000"
                padded_nonce "GET" "/abcd" Hne Hhex
                ltac:(discriminate) ltac:(discriminate)
                eq_refl Hn0) as H1.
  pose proof (validateRequest_signed hmac 1700000005000 a1 a1 "1700000000"
                padded_nonce "GET" "/abcd" Hne Hhex
                ltac:(discriminate) ltac:(discriminate)
                eq_refl Hn1) as H2.
  exists a1. eexists. split; [exact H1|]. split; [reflexivity | exact H2].
Qed.

(** With the stand-in digest the second call is accepted as well. *)
Lemma padded_nonce_replay_accepted_witness :
  let req := signed_request "00ff" padded_nonce in
  let a0 := constructor "0123456789abcdef0123456789abcdef"
              (Options None None None) in
  ∃ a1 a2,
    validateRequest toy_digest 1700000000000 req a0 = (Valid, a1) ∧
    validateRequest toy_digest 1700000005000 req a1 = (Valid, a2).
Proof.
  destruct (padded_nonce_replay_accepted toy_digest
              "0123456789abcdef0123456789abcdef"
              ltac:(discriminate) eq_refl) as (a1 & a2 & H1 & _ & H2).
  exists a1, a2. split; [exact H1 | exact H2].
Defined.

(** The stages that a valid request went through. *)
Lemma validateRequest_valid_stages hmac now req a a' :
  validateRequest hmac now req a = (Valid, a') →
  ∃ auth tsStr nonceStr signature a1,
    extractHeaders req = inr (auth, tsStr, nonceStr) ∧
    parseAuthorizationHeader auth = Some signature ∧
    validateTimestamp now tsStr a = None ∧
    validateNonce now nonceStr tsStr a = (None, a1) ∧
    a' = Authenticator (secret a1) (timestampTolerance a1) (nonceThreshold a1)
           (NonceCache.add now (NonceCache.Str nonceStr) (nonceCache a1)).
Proof.
  unfold validateRequest.
  destruct (extractHeaders req) as [f | [[auth tsStr] nonceStr]] eqn:Hex;
    [done|].
  destruct (parseAuthorizationHeader auth) as [signature|] eqn:Hauth; [|done].
  destruct (validateTimestamp now tsStr a) as [f|] eqn:Ht; [done|].
  destruct (validateNonce now nonceStr tsStr a) as [[f|] a1] eqn:Hn; [done|].
  destruct (verifySignature signature _); [|done]. intros [= <-].
  exists auth, tsStr, nonceStr, signature, a1. repeat split; auto.
Qed.

Lemma validateNonce_passed now nonceStr tsStr a a1 :
  validateNonce now nonceStr tsStr a = (None, a1) →
  ∃ n, parseInt nonceStr = Some n ∧
    (∀ ts, parseInt tsStr = Some ts →
       (ts - nonceThreshold a) * 1000 ≤ n ≤ (ts + timestampTolerance a) * 1000) ∧
    NonceCache.has now (NonceCache.Num n) (nonceCache a)
    = (false, nonceCache a1) ∧
    secret a1 = secret a ∧ timestampTolerance a1 = timestampTolerance a ∧
    nonceThreshold a1 = nonceThreshold a.
Proof.
  unfold validateNonce. destruct (parseInt nonceStr) as [n|]; [|done].
  destruct (parseInt tsStr) as [ts|].
  - destruct (n <? (ts - nonceThreshold a) * 1000) eqn:E1; [done|].
    destruct ((ts + timestampTolerance a) * 1000 <? n) eqn:E2; [done|].
    destruct (NonceCache.has now (NonceCache.Num n) (nonceCache a))
      as [[|] c] eqn:Hhas; [done|].
    intros [= <-]. exists n. simpl. split; [done|].
    split; [intros ts' [= <-]; lia|]. repeat split; done.
  - destruct (NonceCache.has now (NonceCache.Num n) (nonceCache a))
      as [[|] c] eqn:Hhas; [done|].
    intros [= <-]. exists n. simpl. split; [done|].
    split; [intros ts' [=]|]. repeat split; done.
Qed.

(** What C7 says of the checks holds: a request is accepted only with a
    nonce that [parseInt] reads as a number [n], inside the window around
    the timestamp, and such that the cache does not hold the decimal form of
    [n]; and the cache receives the nonce only then. *)
Lemma validateRequest_valid_nonce hmac now req a a' :
  validateRequest hmac now req a = (Valid, a') →
  ∃ tsStr nonceStr ts n,
    nonempty (x_timestamp req) = Some tsStr ∧
    nonempty (x_nonce req) = Some nonceStr ∧
    parseInt tsStr = Some ts ∧ parseInt nonceStr = Some n ∧
    (ts - nonceThreshold a) * 1000 ≤ n ≤ (ts + timestampTolerance a) * 1000 ∧
    fst (NonceCache.has now (NonceCache.Num n) (nonceCache a)) = false ∧
    nonceCache a' =
      NonceCache.add now (NonceCache.Str nonceStr)
        (snd (NonceCache.has now (NonceCache.Num n) (nonceCache a))).
Proof.
  intros H.
  apply validateRequest_valid_stages in H
    as (auth & tsStr & nonceStr & sig & a1 & Hex & _ & Ht & Hn & ->).
  apply validateNonce_passed in Hn as (n & Hpn & Hwin & Hhas & _).
  unfold validateTimestamp in Ht.
  destruct (parseInt tsStr) as [ts|] eqn:Hpt; [|done].
  unfold extractHeaders in Hex.
  destruct (nonempty (authorization req)); [|done].
  destruct (nonempty (x_timestamp req)) as [t|]; [|done].
  destruct (nonempty (x_nonce req)) as [k|]; [|done].
  injection Hex as _ -> ->.
  exists tsStr, nonceStr, ts, n. rewrite Hhas. simpl.
  repeat split; try done; by apply Hwin.
Qed.

Lemma has_lookup now v c b c' :
  NonceCache.has now v c = (b, c') →
  NonceCache.ttl c' = NonceCache.ttl c ∧
  ∀ k x, NonceCache.cache c' !! k = Some x → NonceCache.cache c !! k = Some x.
Proof.
  unfold NonceCache.has.
  destruct (NonceCache.cache c !! NonceCache.toString v) as [e|]; [|by intros [= _ <-]].
  destruct (e <=? now); intros [= _ <-]; [|done]. simpl. split; [done|].
  intros k x Hk. by apply lookup_delete_Some in Hk as [_ ?].
Qed.

(** A request that is refused puts nothing in the cache. *)
Lemma validateRequest_invalid_no_insert hmac now req a f a' :
  validateRequest hmac now req a = (Invalid f, a') →
  ∀ k x, NonceCache.cache (nonceCache a') !! k = Some x →
         NonceCache.cache (nonceCache a) !! k = Some x.
Proof.
  unfold validateRequest.
  destruct (extractHeaders req) as [f0 | [[auth tsStr] nonceStr]];
    [by intros [= _ <-]|].
  destruct (parseAuthorizationHeader auth) as [signature|];
    [|by intros [= _ <-]].
  destruct (validateTimestamp now tsStr a) as [f0|]; [by intros [= _ <-]|].
  assert (∀ o a1, validateNonce now nonceStr tsStr a = (o, a1) →
            ∀ k x, NonceCache.cache (nonceCache a1) !! k = Some x →
                   NonceCache.cache (nonceCache a) !! k = Some x) as Hsub.
  { intros o a1. unfold validateNonce.
    destruct (parseInt nonceStr) as [n|]; [|by intros [= _ <-]].
    repeat (case_match; try by intros [= _ <-]).
    all: intros [= _ <-]; simpl;
      match goal with H : NonceCache.has _ _ _ = _ |- _ =>
        apply has_lookup in H as [_ H]; exact H end. }
  destruct (validateNonce now nonceStr tsStr a) as [[f0|] a1] eqn:Hn.
  - intros [= _ <-]. by eapply Hsub.
  - case_match; [done|]. intros [= _ <-]. by eapply Hsub.
Qed.

(** The replay check works for a nonce sent in the decimal form of its
    value: within the lifetime of the cache entry, the same request is
    refused, as a replay unless its timestamp has expired by then. *)
Lemma canonical_nonce_replay_rejected hmac now now' req a a1 nonceStr n :
  validateRequest hmac now req a = (Valid, a1) →
  nonempty (x_nonce req) = Some nonceStr →
  parseInt nonceStr = Some n → num n = nonceStr →
  now' < now + NonceCache.ttl (nonceCache a) →
  ∃ f a2, validateRequest hmac now' req a1 = (Invalid f, a2) ∧
          (reasonCode f = "expired_timestamp"%string ∨
           reasonCode f = "replay_detected"%string).
Proof.
  intros H Hnonce Hpn Hcanon Hfresh.
  apply validateRequest_valid_stages in H
    as (auth & tsStr & nonceStr' & sig & am & Hex & Hauth & Ht & Hn & ->).
  assert (nonceStr' = nonceStr) as ->.
  { unfold extractHeaders in Hex.
    destruct (nonempty (authorization req)); [|done].
    destruct (nonempty (x_timestamp req)); [|done].
    destruct (nonempty (x_nonce req)); [|done]. congruence. }
  apply validateNonce_passed in Hn
    as (n' & Hpn' & Hwin & Hhas & Hsec & Htol & Hthr).
  assert (n' = n) as -> by congruence.
  apply has_lookup in Hhas as [Httl _].
  unfold validateRequest. rewrite Hex, Hauth.
  unfold validateTimestamp in *. cbn [timestampTolerance].
  destruct (parseInt tsStr) as [ts|] eqn:Hpt; [|done]. rewrite Htol.
  destruct (timestampTolerance a <? Z.abs (now' / 1000 - ts)) eqn:Hexp.
  { eexists _, _. split; [reflexivity|]. by left. }
  unfold validateNonce. rewrite Hpn, Hpt.
  cbn [nonceThreshold timestampTolerance nonceCache]. rewrite ?Htol, ?Hthr.
  specialize (Hwin ts eq_refl).
  destruct (n <? (ts - nonceThreshold a) * 1000) eqn:E1; [lia|].
  destruct ((ts + timestampTolerance a) * 1000 <? n) eqn:E2; [lia|].
  unfold NonceCache.has, NonceCache.add. cbn [NonceCache.toString
    NonceCache.cache NonceCache.ttl]. rewrite Hcanon, lookup_insert_eq, Httl.
  destruct (now + NonceCache.ttl (nonceCache a) <=? now') eqn:E3; [lia|].
  eexists _, _. split; [reflexivity|]. by right.
Qed.

End HmacFacts.

(* ===================================================================== *)
(** * Further facts about the agent                                       *)
(* ===================================================================== *)

Section TunnelAgentMore.
Import Text TunnelAgent.

Lemma run_app evs1 evs2 a :
  run (evs1 ++ evs2) a =
    (fst (run evs2 (fst (run evs1 a))),
     snd (run evs1 a) ++ snd (run evs2 (fst (run evs1 a)))).
Proof.
  revert a. induction evs1 as [|e evs1 IH]; intros a; simpl.
  - by destruct (run evs2 a).
  - destruct (step e a) as [a1 out1]. rewrite IH.
    destruct (run evs1 a1) as [a2 out2]. simpl.
    destruct (run evs2 a2) as [a3 out3]. simpl. by rewrite app_assoc.
Qed.

Lemma existsb_eqb_elem (x : socket) l :
  existsb (Nat.eqb x) l = true ↔ x ∈ l.
Proof.
  rewrite existsb_exists. split.
  - intros (y & Hin & ->%Nat.eqb_eq). by apply list_elem_of_In.
  - intros Hin. exists x. split; [by apply list_elem_of_In|].
    apply Nat.eqb_refl.
Qed.

Lemma remove_first_perm x l : x ∈ l → l ≡ₚ x :: remove_first x l.
Proof.
  induction l as [|y l IH]; [by intros ?%elem_of_nil|].
  intros Hin. simpl. destruct (Nat.eqb x y) eqn:E.
  - apply Nat.eqb_eq in E. by subst.
  - apply Nat.eqb_neq in E. apply elem_of_cons in Hin as [?|Hin]; [done|].
    rewrite (IH Hin) at 1. apply Permutation_swap.
Qed.

Lemma remove_first_notin x l : x ∉ l → remove_first x l = l.
Proof.
  induction l as [|y l IH]; [done|]. intros Hn. simpl.
  apply not_elem_of_cons in Hn as [Hne Hn].
  apply Nat.eqb_neq in Hne. rewrite Hne. by rewrite IH.
Qed.

Lemma remove_first_sublist x l : remove_first x l `sublist_of` l.
Proof.
  induction l as [|y l IH]; simpl; [done|].
  destruct (Nat.eqb x y); [by apply sublist_cons | by apply sublist_skip].
Qed.

Lemma remove_first_submseteq x l k :
  l ⊆+ k → remove_first x l ⊆+ remove_first x k.
Proof.
  intros Hsub. destruct (decide (x ∈ k)) as [Hk|Hk];
    [|rewrite (remove_first_notin x k Hk), remove_first_notin; [done|];
      intros Hl; apply Hk; by eapply elem_of_submseteq].
  pose proof (remove_first_perm x k Hk) as Hpk.
  destruct (decide (x ∈ l)) as [Hl|Hl].
  - pose proof (remove_first_perm x l Hl) as Hpl.
    rewrite Hpl, Hpk in Hsub.
    by apply (submseteq_app_inv_l _ _ [x]) in Hsub.
  - rewrite (remove_first_notin x l Hl). rewrite Hpk in Hsub.
    apply submseteq_cons_r in Hsub as [?|(l' & Hl' & _)]; [done|].
    exfalso. apply Hl. rewrite Hl'. by left.
Qed.

Lemma step_counted e a : counted a → counted (fst (step e a)).
Proof.
  intros [Hc Hs]. destruct e as [s|s|s|cb| |]; simpl; try done.
  - unfold _onConnection.
    destruct (maxTcpSockets a <=? connectedSockets a); [done|].
    destruct (waitingCreateConn a) as [|fn rest]; unfold counted; simpl;
      (split; [rewrite Hc; lia|]).
    + rewrite <- Permutation_cons_append. by apply submseteq_skip.
    + by apply submseteq_cons.
  - unfold onSocketClose.
    destruct (existsb (Nat.eqb s) (attached a)) eqn:E; [|done].
    unfold counted; simpl.
    apply existsb_eqb_elem in E. split.
    + rewrite Hc. apply remove_first_perm in E.
      apply Permutation_length in E. simpl in E. lia.
    + by apply remove_first_submseteq.
  - unfold onSocketError. by destruct (existsb (Nat.eqb s) (attached a)).
  - unfold createConnection. destruct (closed a); [done|].
    destruct (availableSockets a) as [|sock rest] eqn:Hav; unfold counted;
      simpl; [split; [done|apply submseteq_nil_l]|].
    split; [done|]. etrans; [|exact Hs]. by apply submseteq_cons.
Qed.

Lemma constructor_counted o : counted (constructor o).
Proof. split; simpl; done. Qed.

(** X1.  After any sequence of events of a fresh agent, [connectedSockets]
    is the number of sockets whose close handler is still installed (so it
    is never negative), every idle socket is one of them, and the pool is
    never larger than the counter. *)
Theorem connected_counts_attached (o : options) (evs : list event) :
  let a := fst (run evs (constructor o)) in
  connectedSockets a = Z.of_nat (length (attached a)) ∧
  0 ≤ connectedSockets a ∧
  (∀ s, s ∈ availableSockets a → s ∈ attached a) ∧
  Z.of_nat (length (availableSockets a)) ≤ connectedSockets a.
Proof.
  intros a.
  assert (counted a) as [Hc Hs].
  { apply (run_invariant counted); [apply step_counted|].
    apply constructor_counted. }
  split; [exact Hc|]. split; [lia|]. split.
  - intros s Hin. by eapply elem_of_submseteq.
  - rewrite Hc. apply submseteq_length in Hs. lia.
Qed.

Lemma signals_app out1 out2 :
  signals (out1 ++ out2) = signals out1 ++ signals out2.
Proof. unfold signals. apply omap_app. Qed.




Lemma step_shut e a : shut a → shut (fst (step e a)).
Proof.
  intros [Hc Hw]. destruct e as [s|s|s|cb| |]; simpl; try done.
  - unfold _onConnection.
    destruct (maxTcpSockets a <=? connectedSockets a); [done|].
    by rewrite Hw.
  - unfold onSocketClose. by destruct (existsb (Nat.eqb s) (attached a)).
  - unfold onSocketError. by destruct (existsb (Nat.eqb s) (attached a)).
  - unfold createConnection. by rewrite Hc.
Qed.

(** X3.  Once the listener has closed, the agent stays closed: whatever
    happens afterwards, no callback waits in the queue, and every
    [createConnection] is answered at once with the error [closed] and
    changes nothing. *)
Theorem closed_agent_fails_fast (a0 : t) (evs : list event) :
  let a := fst (run (ServerClosed :: evs) a0) in
  closed a = true ∧ waitingCreateConn a = [] ∧
  ∀ cb, createConnection cb a
        = (a, [Call cb (Some "closed"%string) ArgUndefined]).
Proof.
  intros a.
  assert (shut a) as [Hc Hw].
  { subst a. simpl. destruct (run evs _) as [a2 out2] eqn:Hrun.
    change a2 with (fst (a2, out2)). rewrite <- Hrun.
    apply (run_invariant shut); [apply step_shut | done]. }
  split; [done|]. split; [done|]. intros cb. unfold createConnection.
  by rewrite Hc.
Qed.

Lemma handed_app out1 out2 : handed (out1 ++ out2) = handed out1 ++ handed out2.
Proof. unfold handed. apply omap_app. Qed.

Lemma handed_flush l :
  handed (map (λ conn, Call conn (Some "closed"%string) ArgNull) l) = [].
Proof. by induction l. Qed.

Lemma handed_online (b : bool) : handed (if b then [Emit Online] else []) = [].
Proof. by destruct b. Qed.

Lemma handed_offline (b : bool) :
  handed (if b then [Emit Offline] else []) = [].
Proof. by destruct b. Qed.

(** One event: what is given out and what stays idle comes from what was
    idle and what has just connected. *)
Lemma step_handed e a :
  handed (snd (step e a)) ++ availableSockets (fst (step e a))
  ⊆+ availableSockets a ++ connections [e].
Proof.
  destruct e as [s|s|s|cb| |]; simpl.
  - unfold _onConnection.
    destruct (maxTcpSockets a <=? connectedSockets a); simpl.
    { by apply submseteq_inserts_r. }
    destruct (waitingCreateConn a) as [|fn rest]; simpl;
      rewrite ?handed_app, handed_online; simpl; [done|].
    by rewrite Permutation_cons_append.
  - unfold onSocketClose.
    destruct (existsb (Nat.eqb s) (attached a)); simpl;
      rewrite ?handed_offline, app_nil_r; simpl; [|done].
    apply sublist_submseteq, remove_first_sublist.
  - unfold onSocketError.
    by destruct (existsb (Nat.eqb s) (attached a)); simpl; rewrite app_nil_r.
  - unfold createConnection. destruct (closed a); simpl;
      [by rewrite app_nil_r|].
    by destruct (availableSockets a) as [|sock rest]; simpl;
      rewrite ?app_nil_r.
  - rewrite handed_app, handed_flush. simpl. by rewrite app_nil_r.
  - rewrite app_nil_r. simpl. reflexivity.
Qed.

Lemma submseteq_NoDup_l (l k : list socket) : l ⊆+ k → NoDup k → NoDup l.
Proof.
  intros (l' & Hs & Hp)%submseteq_sublist_l Hnd. rewrite <- Hp in Hnd.
  by eapply sublist_NoDup.
Qed.

Lemma connections_cons e evs :
  connections (e :: evs) = connections [e] ++ connections evs.
Proof. unfold connections. by rewrite <- omap_app. Qed.

Lemma run_handed evs : ∀ a,
  handed (snd (run evs a)) ++ availableSockets (fst (run evs a))
  ⊆+ availableSockets a ++ connections evs.
Proof.
  induction evs as [|e evs IH]; intros a.
  - simpl. by rewrite app_nil_r.
  - rewrite connections_cons. cbn [run].
    pose proof (step_handed e a) as Hs. specialize (IH (fst (step e a))).
    destruct (step e a) as [a1 out1]. cbn [fst snd] in IH, Hs.
    destruct (run evs a1) as [a2 out2]. cbn [fst snd] in *.
    rewrite handed_app, <- app_assoc.
    etrans; [apply submseteq_app; [reflexivity | exact IH]|].
    rewrite !app_assoc. by apply submseteq_app.
Qed.

(** X4.  When the incoming connections are different sockets, no socket is
    ever given to two callbacks, and every socket given out is one that
    connected. *)
Theorem socket_handed_once (o : options) (evs : list event) :
  NoDup (connections evs) →
  NoDup (handed (snd (run evs (constructor o)))) ∧
  ∀ s, s ∈ handed (snd (run evs (constructor o))) → s ∈ connections evs.
Proof.
  intros Hnd. pose proof (run_handed evs (constructor o)) as Hsub.
  simpl in Hsub.
  assert (handed (snd (run evs (constructor o))) ⊆+ connections evs) as Hh.
  { etrans; [|exact Hsub]. by apply submseteq_inserts_r. }
  split; [by eapply submseteq_NoDup_l|].
  intros s Hin. by eapply elem_of_submseteq.
Qed.

(** Three sockets, two requests before and one after. *)
Lemma socket_handed_once_witness :
  let evs := [CreateConnection 7%nat; Connection 1%nat; Connection 2%nat;
              CreateConnection 8%nat; Connection 3%nat; SocketClose 3%nat;
              CreateConnection 9%nat] in
  NoDup (handed (snd (run evs (constructor (Options "abcd" None None))))).
Proof.
  intros evs.
  refine (proj1 (socket_handed_once (Options "abcd" None None) evs _)).
  vm_compute. repeat (constructor; [set_solver|]). constructor.
Defined.

End TunnelAgentMore.

(* ===================================================================== *)
(** * Further facts about the client                                      *)
(* ===================================================================== *)

Section ClientMore.
Import Text Client.



Lemma client_run_invariant (P : t → Prop) :
  (∀ w e c, P c → P (fst (step w e c))) →
  ∀ evs c, P c → P (fst (run evs c)).
Proof.
  intros Hstep evs. induction evs as [|[w e] evs IH]; intros c Hc; simpl;
    [done|].
  specialize (Hstep w e c Hc). destruct (step w e c) as [c1 out1].
  simpl in Hstep. specialize (IH c1 Hstep).
  destruct (run evs c1) as [c2 out2]. exact IH.
Qed.

Lemma one_timer_clear c :
  immediate c = false →
  match graceTimeout c with
  | None => armed c = []
  | Some h => ∃ due, armed c = [(h, due)]
  end →
  armed (_clearGracePeriod c) = [] ∧ graceTimeout (_clearGracePeriod c) = None
  ∧ immediate (_clearGracePeriod c) = false.
Proof.
  intros Hi Ht. unfold _clearGracePeriod.
  destruct (graceTimeout c) as [h|] eqn:E; simpl; [|by rewrite E].
  destruct Ht as [due ->]. simpl. by rewrite Nat.eqb_refl.
Qed.

Lemma one_timer_onOnline c : one_timer c → one_timer (onOnline c).
Proof.
  intros (Hi & Ht & Ho). unfold onOnline.
  destruct (one_timer_clear (with_isOnline true c)) as (Ha & Hg & Him);
    [done..|].
  split; [done|]. rewrite Hg. by split.
Qed.

Lemma one_timer_onOffline w c : one_timer c → one_timer (onOffline w c).
Proof.
  intros (Hi & Ht & Ho). unfold onOffline.
  destruct (one_timer_clear (with_isOnline false c)) as (Ha & Hg & Him);
    [done..|].
  unfold one_timer, _setGracePeriod. simpl. rewrite Ha, Him.
  rewrite _clearGracePeriod_isOnline. simpl.
  split; [done|]. split; [by eexists|done].
Qed.

Lemma one_timer_deliver w out : ∀ c, one_timer c → one_timer (deliver w out c).
Proof.
  induction out as [|e out IH]; intros c Hc; simpl; [done|].
  destruct e as [[| |]| | | | | |]; apply IH; try done.
  - by apply one_timer_onOnline.
  - by apply one_timer_onOffline.
Qed.

Lemma one_timer_close c : one_timer c → one_timer (fst (close c)).
Proof.
  intros Hc. rewrite close_spec. cbn [fst].
  destruct Hc as (Hi & Ht & Ho).
  destruct (one_timer_clear c Hi Ht) as (Ha & Hg & Him).
  split; [done|]. rewrite Hg. by split.
Qed.

Lemma one_timer_step w e c : one_timer c → one_timer (fst (step w e c)).
Proof.
  intros Hc. destruct e as [ae| | | | |h|]; cbn [step].
  - destruct (TunnelAgent.step ae (agent c)) as [a out]. cbn [fst].
    apply one_timer_deliver. by destruct c.
  - by apply one_timer_onOnline.
  - by apply one_timer_onOffline.
  - unfold onError. destruct (errorListener c) eqn:E; [|done].
    apply one_timer_close. by destruct c.
  - unfold onImmediate. pose proof Hc as (Hi & _). by rewrite Hi.
  - unfold onTimeout.
    destruct (existsb (λ p, Nat.eqb (fst p) h) (armed c)) eqn:E; [|done].
    destruct Hc as (Hi & Ht & Ho).
    destruct (graceTimeout c) as [h'|] eqn:Hg;
      [|by rewrite Ht in E].
    destruct Ht as [due Ha]. rewrite Ha in E. simpl in E.
    rewrite orb_false_r in E. apply Nat.eqb_eq in E. subst h'.
    rewrite close_spec. cbn [fst]. unfold _clearGracePeriod. simpl.
    rewrite Ha. unfold one_timer. simpl. rewrite Nat.eqb_refl. simpl.
    by split.
  - by apply one_timer_close.
Qed.

(** X6.  A client whose [setImmediate] callback runs before any other event
    reaches it never has two grace timers: after any further events the
    only timeout that is set is the one held in [graceTimeout], and while
    the client is online none is set, so no timer can remove an online
    client. *)
Theorem one_grace_timer (wc w0 : world) (o : options)
    (evs : list (world * event)) :
  let c := fst (run ((w0, Immediate) :: evs) (constructor wc o)) in
  (length (armed c) ≤ 1)%nat ∧
  (∀ h due, (h, due) ∈ armed c → graceTimeout c = Some h) ∧
  (graceTimeout c = None → armed c = []) ∧
  (isOnline c = true → armed c = []).
Proof.
  intros c.
  assert (one_timer c) as (Hi & Ht & Ho).
  { subst c. cbn [run step]. destruct (run evs _) as [c2 out2] eqn:Hrun.
    change c2 with (fst (c2, out2)). rewrite <- Hrun.
    apply (client_run_invariant one_timer); [apply one_timer_step|].
    unfold onImmediate, constructor, one_timer, _setGracePeriod. simpl.
    split; [done|]. split; [by eexists|done]. }
  destruct (graceTimeout c) as [h|] eqn:Hg.
  - destruct Ht as [due Ha]. rewrite Ha. simpl. split; [lia|].
    split; [|split; [done|by intros ?%Ho]].
    by intros h' due' [=-> ->]%list_elem_of_singleton.
  - rewrite Ht. split; [simpl; lia|].
    split; [by intros h due ?%elem_of_nil|done].
Qed.

Lemma deliver_isOnline w out : ∀ c,
  isOnline (deliver w out c) = heard (isOnline c) (TunnelAgent.signals out).
Proof.
  induction out as [|e out IH]; intros c; [done|].
  destruct e as [[| |]| | | | | |]; simpl; rewrite IH; try done.
  - unfold onOnline. by rewrite _clearGracePeriod_isOnline.
  - unfold onOffline, _setGracePeriod. simpl.
    by rewrite _clearGracePeriod_isOnline.
Qed.

Lemma signals_flush l :
  TunnelAgent.signals
    (map (λ conn, TunnelAgent.Call conn (Some "closed"%string)
                    TunnelAgent.ArgNull) l) = [].
Proof. by induction l. Qed.

(** What the agent emits in one step says whether it still counts a
    socket. *)
Lemma step_heard ae a :
  TunnelAgent.counted a →
  heard (0 <? TunnelAgent.connectedSockets a)
        (TunnelAgent.signals (snd (TunnelAgent.step ae a)))
  = (0 <? TunnelAgent.connectedSockets (fst (TunnelAgent.step ae a))).
Proof.
  intros Hcnt. pose proof (step_counted ae a Hcnt) as [Hc' _].
  destruct Hcnt as [Hc _].
  destruct ae as [s|s|s|cb| |]; cbn [TunnelAgent.step] in *.
  - unfold TunnelAgent._onConnection in *.
    destruct (TunnelAgent.maxTcpSockets a <=? TunnelAgent.connectedSockets a);
      [done|].
    destruct (TunnelAgent.connectedSockets a =? 0) eqn:E0;
      destruct (TunnelAgent.waitingCreateConn a); simpl; lia.
  - unfold TunnelAgent.onSocketClose in *.
    destruct (existsb (Nat.eqb s) (TunnelAgent.attached a)); [|done].
    simpl in *.
    destruct (TunnelAgent.connectedSockets a - 1 <=? 0) eqn:E0; simpl; lia.
  - unfold TunnelAgent.onSocketError.
    by destruct (existsb (Nat.eqb s) (TunnelAgent.attached a)).
  - unfold TunnelAgent.createConnection. destruct (TunnelAgent.closed a);
      [done|]. by destruct (TunnelAgent.availableSockets a).
  - unfold TunnelAgent._onClose. cbn [fst snd].
    by rewrite signals_app, signals_flush.
  - done.
Qed.

Lemma tracks_agent_step w e c :
  match e with AgentOnline | AgentOffline => False | _ => True end →
  tracks_agent c → tracks_agent (fst (step w e c)).
Proof.
  intros He [Hcnt Hon].
  destruct e as [ae| | | | |h|]; cbn [step]; try done.
  - pose proof (step_counted ae (agent c) Hcnt) as Hcnt'.
    pose proof (step_heard ae (agent c) Hcnt) as Hh.
    destruct (TunnelAgent.step ae (agent c)) as [a out]. cbn [fst snd] in *.
    split; rewrite ?deliver_isOnline, deliver_agent; simpl; [done|].
    by rewrite Hon.
  - unfold onError. destruct (errorListener c); [|done].
    rewrite close_spec. cbn [fst]. split.
    + by rewrite _clearGracePeriod_agent.
    + by rewrite _clearGracePeriod_isOnline, _clearGracePeriod_agent.
  - unfold onImmediate. destruct (immediate c); [|done]. simpl.
    destruct (isOnline c) eqn:E; split; simpl; done.
  - unfold onTimeout.
    destruct (existsb (λ p, Nat.eqb (fst p) h) (armed c)); [|done].
    rewrite close_spec. cbn [fst]. split.
    + by rewrite _clearGracePeriod_agent.
    + by rewrite _clearGracePeriod_isOnline, _clearGracePeriod_agent.
  - rewrite close_spec. cbn [fst]. split.
    + by rewrite _clearGracePeriod_agent.
    + by rewrite _clearGracePeriod_isOnline, _clearGracePeriod_agent.
Qed.

Lemma tracks_agent_run evs : ∀ c,
  from_agent evs = true → tracks_agent c → tracks_agent (fst (run evs c)).
Proof.
  induction evs as [|[w e] evs IH]; intros c Hevs Hc; simpl; [done|].
  simpl in Hevs. apply andb_true_iff in Hevs as [He Hevs].
  pose proof (tracks_agent_step w e c) as Hs.
  destruct (step w e c) as [c1 out1]. cbn [fst] in Hs.
  specialize (IH c1 Hevs). destruct (run evs c1) as [c2 out2]. cbn [fst] in *.
  apply IH, Hs; [|done]. by destruct e.
Qed.

(** X7.  For a client built on a fresh agent, whose [online] and [offline]
    come from that agent only, [isOnline] says exactly whether the agent
    counts at least one connected socket, whatever else happens (requests,
    timers, errors, [close()]). *)
Theorem online_flag_tracks_sockets (wc : world) (cid : string)
    (ao : TunnelAgent.options) (ip : option string)
    (ident : option identifier_t) (evs : list (world * event)) :
  from_agent evs = true →
  let c := fst (run evs (constructor wc
                  (Options cid (TunnelAgent.constructor ao) ip ident))) in
  isOnline c = (0 <? TunnelAgent.connectedSockets (agent c)).
Proof.
  intros Hevs c.
  assert (tracks_agent c) as [_ H]; [|exact H].
  apply tracks_agent_run; [done|]. split; [|done].
  apply constructor_counted.
Qed.

(** Two sockets connect, a request takes one, both close, the timer of the
    grace period fires. *)
Lemma online_flag_tracks_sockets_witness :
  let w := World 1000 (Env None None None) in
  let evs := [(w, Immediate);
              (w, AgentEvent (TunnelAgent.Connection 1%nat));
              (w, AgentEvent (TunnelAgent.Connection 2%nat));
              (w, AgentEvent (TunnelAgent.CreateConnection 7%nat));
              (w, AgentEvent (TunnelAgent.SocketClose 1%nat));
              (w, AgentEvent (TunnelAgent.SocketClose 2%nat));
              (World 40000 (Env None None None), Timeout 1%nat)] in
  let c := fst (run evs (constructor w
                  (Options "abcd"
                     (TunnelAgent.constructor
                        (TunnelAgent.Options "abcd" None None))
                     None None))) in
  isOnline c = (0 <? TunnelAgent.connectedSockets (agent c)).
Proof.
  intros w evs.
  exact (online_flag_tracks_sockets w "abcd"
           (TunnelAgent.Options "abcd" None None) None None evs eq_refl).
Defined.

End ClientMore.

(* ===================================================================== *)
(** * Further facts about the manager                                     *)
(* ===================================================================== *)

Section ClientManagerMore.
Import Text ClientManager.

Lemma _releasePort_frame port m :
  clients (_releasePort port m) = clients m ∧
  opt (_releasePort port m) = opt m ∧
  tunnels (_releasePort port m) = tunnels m.
Proof. unfold _releasePort. repeat case_match; done. Qed.

Lemma removeClient_frame id m :
  clients (fst (removeClient id m)) = delete id (clients m) ∧
  opt (fst (removeClient id m)) = opt m.
Proof.
  unfold removeClient. destruct (clients m !! id) as [c|] eqn:Hc.
  - destruct (Client.close c). simpl.
    by destruct (_releasePort_frame
                   (TunnelAgent.port (Client.agent c)) m) as (-> & -> & _).
  - simpl. by rewrite delete_id.
Qed.

Lemma _getPort_frame m m' port :
  _getPort m = inr (m', port) →
  clients m' = clients m ∧ opt m' = opt m ∧ tunnels m' = tunnels m.
Proof.
  unfold _getPort. destruct (availablePorts m).
  - destruct (range_configured m); [done|]. by intros [= <- _].
  - by intros [= <- _].
Qed.

Lemma resolve_id_frame w id ident rnd m m1 id1 out1 :
  resolve_id w id ident rnd m = inr (m1, id1, out1) →
  (m1 = m ∧ out1 = [] ∧ (id1 = id ∨ id1 = rnd)) ∨
  (m1 = fst (removeClient id m) ∧ out1 = snd (removeClient id m) ∧ id1 = id).
Proof.
  unfold resolve_id. destruct (removeClient id m) as [mr outr].
  destruct (clients m !! id) as [c|]; [|intros [= <- <- <-]; left; auto].
  repeat case_match; try done; intros [= <- <- <-]; auto.
Qed.

Lemma newClient_begin_lookup w id o rnd m id' c :
  clients (state (newClient_begin w id o rnd m)) !! id' = Some c →
  clients m !! id' = Some c ∨
  ∃ port, c = created w id' o (max_tcp_sockets (opt m)) port.
Proof.
  unfold newClient_begin.
  destruct (resolve_id w id (caller_identifier o) rnd m)
    as [e | [[m1 id1] out1]] eqn:Hres; [by left|].
  assert (opt m1 = opt m ∧
          (clients m1 !! id' = Some c → clients m !! id' = Some c))
    as [Hopt Hlk].
  { apply resolve_id_frame in Hres as [(-> & _)|(-> & _)]; [done|].
    destruct (removeClient_frame id m) as [-> ->]. split; [done|].
    by intros [_ ?]%lookup_delete_Some. }
  destruct (_getPort m1) as [e | [m2 port]] eqn:Hget; simpl; [by auto|].
  apply _getPort_frame in Hget as (Hcs & Hopt2 & _). rewrite Hcs.
  intros [[<- <-]|[_ H]]%lookup_insert_Some; [|by auto].
  right. exists port. unfold created. by rewrite Hopt.
Qed.

Lemma newClient_settle_lookup l p m id' c :
  clients (final (newClient_settle l p m)) !! id' = Some c →
  clients m !! id' = Some c.
Proof.
  destruct l as [port|msg]; simpl; [done|].
  pose proof (removeClient_frame (pend_id p) m) as [Hc _].
  destruct (removeClient (pend_id p) m) as [m1 out1]. simpl in *.
  rewrite Hc. by intros [_ ?]%lookup_delete_Some.
Qed.

Lemma clientEvent_lookup w id e m id' c :
  clients (fst (clientEvent w id e m)) !! id' = Some c →
  clients m !! id' = Some c ∨
  ∃ c0, id' = id ∧ clients m !! id = Some c0 ∧ c = fst (Client.step w e c0).
Proof.
  unfold clientEvent. destruct (clients m !! id) as [c0|] eqn:Hc0; [|by left].
  destruct (Client.step w e c0) as [c1 out1] eqn:Hstep. simpl.
  destruct (Nat.ltb 0 (Client.closes out1)).
  - match goal with |- context [removeClient ?i ?x] =>
      pose proof (removeClient_frame i x) as [Hc _];
      destruct (removeClient i x) as [m2 out2] end.
    simpl in *. rewrite Hc.
    intros [Hne H]%lookup_delete_Some. rewrite lookup_insert_ne in H by done.
    by left.
  - simpl. intros [[<- <-]|[_ H]]%lookup_insert_Some; [|by left].
    right. exists c0. by rewrite Hstep.
Qed.

Lemma newClient_final w id no rnd l m :
  final (newClient w id no rnd l m)
  = match ret (newClient_begin w id no rnd m) with
    | inl _ => state (newClient_begin w id no rnd m)
    | inr p => final (newClient_settle l p (state (newClient_begin w id no rnd m)))
    end.
Proof. unfold newClient. by destruct (ret _). Qed.

(** How an entry of the registry comes about: it was there, or it is the
    entry of before after one event of that client, or [newClient] has just
    built it. *)
Lemma apply_lookup op m id c :
  clients (apply op m) !! id = Some c →
  clients m !! id = Some c ∨
  (∃ w e c0, clients m !! id = Some c0 ∧ c = fst (Client.step w e c0)) ∨
  (∃ w o port, c = created w id o (max_tcp_sockets (opt m)) port).
Proof.
  destruct op as [w i no rnd l|w i no rnd|l p|i|w i e]; simpl.
  - rewrite newClient_final. intros H.
    assert (clients (state (newClient_begin w i no rnd m)) !! id = Some c)
      as H'.
    { destruct (ret _); [done|]. by apply newClient_settle_lookup in H. }
    apply newClient_begin_lookup in H' as [?|[port ->]]; [by left|].
    right; right. by exists w, no, port.
  - intros [?|[port ->]]%newClient_begin_lookup; [by left|].
    right; right. by exists w, no, port.
  - intros ?%newClient_settle_lookup. by left.
  - destruct (removeClient_frame i m) as [-> _].
    intros [_ ?]%lookup_delete_Some. by left.
  - intros [?|(c0 & -> & Hc0 & ->)]%clientEvent_lookup; [by left|].
    right; left. by exists w, e, c0.
Qed.

Lemma newClient_begin_opt w id o rnd m :
  opt (state (newClient_begin w id o rnd m)) = opt m.
Proof.
  unfold newClient_begin.
  destruct (resolve_id w id (caller_identifier o) rnd m)
    as [e | [[m1 id1] out1]] eqn:Hres; [done|].
  assert (opt m1 = opt m) as Hopt.
  { apply resolve_id_frame in Hres as [(-> & _)|(-> & _)]; [done|].
    by destruct (removeClient_frame id m) as [_ ->]. }
  destruct (_getPort m1) as [e | [m2 port]] eqn:Hget; simpl; [done|].
  apply _getPort_frame in Hget as (_ & -> & _). done.
Qed.

Lemma newClient_settle_opt l p m : opt (final (newClient_settle l p m)) = opt m.
Proof.
  destruct l as [port|msg]; simpl; [done|].
  pose proof (removeClient_frame (pend_id p) m) as [_ Ho].
  by destruct (removeClient (pend_id p) m).
Qed.

Lemma apply_opt op m : opt (apply op m) = opt m.
Proof.
  destruct op as [w i no rnd l|w i no rnd|l p|i|w i e]; simpl.
  - rewrite newClient_final. destruct (ret _);
      by rewrite ?newClient_settle_opt, newClient_begin_opt.
  - apply newClient_begin_opt.
  - apply newClient_settle_opt.
  - by destruct (removeClient_frame i m) as [_ ->].
  - unfold clientEvent. destruct (clients m !! i) as [c0|]; [|done].
    destruct (Client.step w e c0) as [c1 out1].
    destruct (Nat.ltb 0 (Client.closes out1)); [|done].
    match goal with |- context [removeClient ?i ?x] =>
      pose proof (removeClient_frame i x) as [_ Ho];
      destruct (removeClient i x) as [m2 out2] end.
    done.
Qed.

(** A property of clients that every event of a client keeps and that a
    newly built client has holds for every entry of the registry. *)
Lemma run_registry (o : options) (Q : string → Client.t → Prop) :
  (∀ w e id c, Q id c → Q id (fst (Client.step w e c))) →
  (∀ w id no port, Q id (created w id no (max_tcp_sockets o) port)) →
  ∀ ops m, opt m = o →
    (∀ id c, clients m !! id = Some c → Q id c) →
    ∀ id c, clients (run ops m) !! id = Some c → Q id c.
Proof.
  intros Hstep Hnew ops. induction ops as [|op ops IH]; intros m Ho Hm;
    [exact Hm|].
  unfold run. simpl. fold (run ops (apply op m)).
  apply IH; [by rewrite apply_opt|].
  intros id c [H|[(w & e & c0 & Hc0 & ->)|(w & no & port & ->)]]%apply_lookup.
  - by apply Hm.
  - by apply Hstep, Hm.
  - rewrite Ho. apply Hnew.
Qed.

Lemma _clearGracePeriod_id c : Client.id (Client._clearGracePeriod c) = Client.id c.
Proof. unfold Client._clearGracePeriod. by destruct (Client.graceTimeout c). Qed.

Lemma deliver_id w out : ∀ c, Client.id (Client.deliver w out c) = Client.id c.
Proof.
  induction out as [|e out IH]; intros c; simpl; [done|].
  destruct e as [[| |]| | | | | |]; rewrite IH; try done.
  - unfold Client.onOnline. by rewrite _clearGracePeriod_id.
  - unfold Client.onOffline, Client._setGracePeriod. simpl.
    by rewrite _clearGracePeriod_id.
Qed.

Lemma client_step_id w e c : Client.id (fst (Client.step w e c)) = Client.id c.
Proof.
  destruct e as [ae| | | | |h|]; cbn [Client.step fst].
  - destruct (TunnelAgent.step ae (Client.agent c)) as [a out]. cbn [fst].
    by rewrite deliver_id.
  - unfold Client.onOnline. by rewrite _clearGracePeriod_id.
  - unfold Client.onOffline, Client._setGracePeriod. simpl.
    by rewrite _clearGracePeriod_id.
  - unfold Client.onError. destruct (Client.errorListener c); [|done].
    rewrite close_spec. cbn [fst]. by rewrite _clearGracePeriod_id.
  - unfold Client.onImmediate. destruct (Client.immediate c); [|done].
    simpl. by destruct (Client.isOnline c).
  - unfold Client.onTimeout. destruct (existsb _ _); [|done].
    rewrite close_spec. cbn [fst]. by rewrite _clearGracePeriod_id.
  - rewrite close_spec. cbn [fst]. by rewrite _clearGracePeriod_id.
Qed.

(** Only the events of the agent change the agent of a client. *)
Lemma client_step_agent w e c :
  Client.agent (fst (Client.step w e c)) = Client.agent c ∨
  ∃ ae, Client.agent (fst (Client.step w e c))
        = fst (TunnelAgent.step ae (Client.agent c)).
Proof.
  destruct e as [ae| | | | |h|]; cbn [Client.step fst].
  - right. exists ae.
    destruct (TunnelAgent.step ae (Client.agent c)) as [a out]. cbn [fst].
    by rewrite deliver_agent.
  - left. unfold Client.onOnline. by rewrite _clearGracePeriod_agent.
  - left. unfold Client.onOffline, Client._setGracePeriod. simpl.
    by rewrite _clearGracePeriod_agent.
  - left. unfold Client.onError. destruct (Client.errorListener c); [|done].
    rewrite close_spec. cbn [fst]. by rewrite _clearGracePeriod_agent.
  - left. unfold Client.onImmediate. destruct (Client.immediate c); [|done].
    simpl. by destruct (Client.isOnline c).
  - left. unfold Client.onTimeout. destruct (existsb _ _); [|done].
    rewrite close_spec. cbn [fst]. by rewrite _clearGracePeriod_agent.
  - left. rewrite close_spec. cbn [fst]. by rewrite _clearGracePeriod_agent.
Qed.

Lemma recorded_step o w e id c :
  recorded o id c → recorded o id (fst (Client.step w e c)).
Proof.
  intros (Hid & Hcnt & Hmax & Hle). split; [by rewrite client_step_id|].
  destruct (client_step_agent w e c) as [->|[ae ->]]; [done|].
  split; [by apply step_counted|].
  split; [by rewrite step_maxTcpSockets|]. by apply step_bounded.
Qed.

(** X8.  Every tunnel that the manager has in its registry, after any
    sequence of [newClient], [removeClient] and client events, is filed
    under its own id, and its agent has the manager's socket limit and
    counts between zero and that limit; the idle sockets are never more
    than the connected ones.  (The limit given to the manager is not
    negative.) *)
Theorem registered_agents_bounded (o : options) (ops : list op)
    (id : string) (c : Client.t) :
  match max_tcp_sockets o with Some n => 0 ≤ n | None => True end →
  clients (run ops (constructor o)) !! id = Some c →
  Client.id c = id ∧
  TunnelAgent.maxTcpSockets (Client.agent c)
    = or_default (max_tcp_sockets o) TunnelAgent.DEFAULT_MAX_SOCKETS ∧
  0 ≤ TunnelAgent.connectedSockets (Client.agent c)
    ≤ TunnelAgent.maxTcpSockets (Client.agent c) ∧
  Z.of_nat (length (TunnelAgent.availableSockets (Client.agent c)))
    ≤ TunnelAgent.connectedSockets (Client.agent c).
Proof.
  intros Hcap Hc.
  assert (recorded o id c) as (Hid & [Hcnt Hsub] & Hmax & Hle).
  { refine (run_registry o (recorded o) _ _ ops (constructor o) eq_refl _
              id c Hc).
    - intros w e id' c'. apply recorded_step.
    - intros w id' no port. unfold recorded, created. simpl.
      split; [done|]. split; [by split|]. split; [done|].
      unfold or_default, TunnelAgent.DEFAULT_MAX_SOCKETS.
      destruct (max_tcp_sockets o) as [n|]; [|lia].
      destruct (n =? 0) eqn:E; lia.
    - intros id' c'. simpl. by rewrite lookup_empty. }
  split; [done|]. split; [done|]. split; [rewrite Hcnt at 1; lia|].
  rewrite Hcnt. apply submseteq_length in Hsub. lia.
Qed.

(** A tunnel with the limit 2 gets three connections. *)
Lemma registered_agents_bounded_witness :
  let o := Options (Some 2) None None in
  let w := Scenarios.at_time 1000 in
  let ops := [NewClient w "abcd" (Scenarios.from_ip "1.2.3.4") "tidy-eel-12"
                (Resolves 40123);
              ClientEvent w "abcd" Client.Immediate;
              ClientEvent w "abcd"
                (Client.AgentEvent (TunnelAgent.Connection 1%nat));
              ClientEvent w "abcd"
                (Client.AgentEvent (TunnelAgent.Connection 2%nat));
              ClientEvent w "abcd"
                (Client.AgentEvent (TunnelAgent.Connection 3%nat))] in
  ∃ c, clients (run ops (constructor o)) !! "abcd" = Some c ∧
       0 ≤ TunnelAgent.connectedSockets (Client.agent c)
         ≤ TunnelAgent.maxTcpSockets (Client.agent c).
Proof.
  intros o w ops.
  destruct (clients (run ops (constructor o)) !! "abcd") as [c|] eqn:Hc;
    [|vm_compute in Hc; discriminate].
  exists c. split; [reflexivity|].
  exact (proj1 (proj2 (proj2
    (registered_agents_bounded o ops "abcd" c ltac:(simpl; lia) Hc)))).
Defined.

Lemma run_configured ops m :
  range_configured (run ops m) = range_configured m.
Proof.
  destruct (run_ranges ops m) as [Hs He]. unfold range_configured.
  by rewrite Hs, He.
Qed.

(** X9.  A tunnel of the registry listens on a port of the configured range
    [lo..hi]; it leaves the choice of the port to the system only when no
    range is configured. *)
Theorem tunnel_ports_within_range (o : options) (ops : list op)
    (id : string) (c : Client.t) :
  clients (run ops (constructor o)) !! id = Some c →
  match TunnelAgent.port (Client.agent c) with
  | Some p => ∃ lo hi, opt_portRangeStart o = Some lo ∧
                       opt_portRangeEnd o = Some hi ∧ lo ≤ p ≤ hi
  | None => range_configured (constructor o) = false
  end.
Proof.
  intros Hc.
  pose proof (run_inv ops (constructor o) (constructor_inv o))
    as (Hpart & Hused & _).
  destruct (run_ranges ops (constructor o)) as [Hs He].
  destruct (TunnelAgent.port (Client.agent c)) as [p|] eqn:Hp.
  - assert (p ∈ usedPorts (run ops (constructor o))) as Hin.
    { apply (Hused id). unfold port_of. by rewrite Hc. }
    unfold pool_partition in Hpart. rewrite Hs, He in Hpart. simpl in Hpart.
    assert (p ∈ initial_ports (opt_portRangeStart o) (opt_portRangeEnd o))
      as Hrange.
    { rewrite <- Hpart. apply elem_of_app. right. by apply elem_of_elements. }
    unfold initial_ports in Hrange.
    destruct (opt_portRangeStart o) as [lo|]; [|by apply elem_of_nil in Hrange].
    destruct (opt_portRangeEnd o) as [hi|]; [|by apply elem_of_nil in Hrange].
    destruct (truthy (Some lo) && truthy (Some hi));
      [|by apply elem_of_nil in Hrange].
    apply elem_of_seqZ in Hrange. exists lo, hi. repeat split; lia.
  - destruct (range_configured (constructor o)) eqn:Hrc; [|done].
    assert (ports_assigned (run ops (constructor o))) as Ha.
    { apply run_assigned. intros _ id' [c' Hc']. simpl in Hc'.
      by rewrite lookup_empty in Hc'. }
    rewrite <- (run_configured ops) in Hrc.
    destruct (Ha Hrc id) as [q Hq]; [by eexists|].
    unfold port_of in Hq. rewrite Hc in Hq. congruence.
Qed.

(** The tunnel that holds the only port of the pool. *)
Lemma tunnel_ports_within_range_witness :
  ∃ c, clients Scenarios.held_in_grace !! "abcd" = Some c ∧
       TunnelAgent.port (Client.agent c) = Some 5000.
Proof.
  destruct (clients Scenarios.held_in_grace !! "abcd") as [c|] eqn:Hc;
    [|vm_compute in Hc; discriminate].
  exists c. split; [reflexivity|].
  pose proof (tunnel_ports_within_range
                (Options None (Some 5000) (Some 5000)) _ "abcd" c Hc) as H.
  destruct (TunnelAgent.port (Client.agent c)) as [p|].
  - destruct H as (lo & hi & [= <-] & [= <-] & Hp). f_equal. lia.
  - discriminate H.
Defined.



(** X11.  A caller whose identifier differs from that of the registered
    client never displaces it: whatever state that client is in, and
    however the call ends, the entry stays as it was, nothing is emitted
    for that id, and a successful call returns the id that
    [hri.random()] gave.  (The random id is not the requested one.) *)
Theorem foreign_caller_never_displaces (w : Client.world) (m : t)
    (id : string) (no : new_options) (rnd : string) (l : listen_outcome)
    (existing : Client.t) :
  clients m !! id = Some existing →
  identifierMatch (Client.identifier existing) (caller_identifier no) = false →
  rnd ≠ id →
  let r := newClient w id no rnd l m in
  clients (final r) !! id = Some existing ∧
  (∀ e, ClientEffect id e ∉ emitted r) ∧
  (∀ i, result r = inr i → info_id i = rnd).
Proof.
  intros Hex Hmis Hrnd r. subst r.
  unfold newClient, newClient_begin.
  assert (resolve_id w id (caller_identifier no) rnd m = inr (m, rnd, [])
          ∨ ∃ e, resolve_id w id (caller_identifier no) rnd m = inl e)
    as [Hres|[e Hres]].
  { unfold resolve_id. rewrite Hex, Hmis.
    destruct (bool_decide _ && negb _); [|by left].
    destruct (strictMode (Client.env w)); [right; by eexists | by left]. }
  2:{ rewrite Hres. simpl. split; [done|].
      split; [by intros e' ?%elem_of_nil | done]. }
  rewrite Hres.
  destruct (_getPort m) as [e | [m2 port]] eqn:Hget; simpl.
  { split; [done|]. split; [by intros e' ?%elem_of_nil | done]. }
  apply _getPort_frame in Hget as (Hcs & _ & _).
  destruct l as [p|msg]; simpl.
  - rewrite lookup_insert_ne, Hcs by done. split; [done|].
    split; [by intros e' ?%elem_of_nil | by intros i [= <-]].
  - match goal with |- context [removeClient ?i ?x] =>
      pose proof (removeClient_frame i x) as [Hc _];
      pose proof (removeClient_Some i x) as Hsome;
      destruct (removeClient i x) as [m3 out3] end.
    simpl in *. rewrite Hc, lookup_delete_ne, lookup_insert_ne, Hcs by done.
    split; [done|]. split; [|done].
    rewrite lookup_insert_eq in Hsome. specialize (Hsome _ eq_refl).
    injection Hsome as _ ->. intros e'.
    rewrite !elem_of_cons, elem_of_nil. intros [[=]|[[=]|[]]]; congruence.
Qed.

(** Another address asks for the id of the tunnel that waits in its grace
    period. *)
Lemma foreign_caller_never_displaces_witness :
  ∃ c, clients Scenarios.offline_since_100000 !! "abcd" = Some c ∧
       clients (final (newClient (Scenarios.at_time 101000) "abcd"
                         (Scenarios.from_ip "5.6.7.8") "tidy-eel-12"
                         (Resolves 40124) Scenarios.offline_since_100000))
         !! "abcd" = Some c.
Proof.
  destruct (clients Scenarios.offline_since_100000 !! "abcd") as [c|] eqn:Hc;
    [|vm_compute in Hc; discriminate].
  exists c. split; [reflexivity|].
  refine (proj1 (foreign_caller_never_displaces
            (Scenarios.at_time 101000) Scenarios.offline_since_100000 "abcd"
            (Scenarios.from_ip "5.6.7.8") "tidy-eel-12" (Resolves 40124)
            c Hc _ ltac:(discriminate))).
  vm_compute in Hc. injection Hc as <-. vm_compute. reflexivity.
Defined.

(** X12.  A caller whose identifier equals that of the registered client
    takes the id over, whether that client is online or in its grace
    period: the old client is closed first; a successful call returns the
    same id and leaves a newly built client under it; a failed call leaves
    the id free. *)
Theorem owner_reclaims_id (w : Client.world) (m : t) (id : string)
    (no : new_options) (rnd : string) (l : listen_outcome)
    (existing : Client.t) :
  clients m !! id = Some existing →
  identifierMatch (Client.identifier existing) (caller_identifier no) = true →
  let r := newClient w id no rnd l m in
  (∃ rest, emitted r
           = ClientEffect id (Client.AgentEffect TunnelAgent.ServerClose)
             :: ClientEffect id Client.EmitClose :: rest) ∧
  match result r with
  | inr i => info_id i = id ∧
             ∃ port, clients (final r) !! id
                     = Some (created w id no (max_tcp_sockets (opt m)) port)
  | inl _ => clients (final r) !! id = None
  end.
Proof.
  intros Hex Hsame r. subst r.
  unfold newClient, newClient_begin.
  pose proof (removeClient_Some id m existing Hex) as Hrm.
  pose proof (removeClient_frame id m) as [Hrc Hro].
  pose proof (removeClient_lookup id m) as Hrl.
  assert (resolve_id w id (caller_identifier no) rnd m
          = inr (fst (removeClient id m), id, snd (removeClient id m)))
    as Hres.
  { unfold resolve_id. rewrite Hex, Hsame.
    destruct (removeClient id m). by destruct (bool_decide _ && negb _). }
  rewrite Hres. destruct (removeClient id m) as [m1 out1].
  simpl in *. injection Hrm as _ ->.
  destruct (_getPort m1) as [e | [m2 port]] eqn:Hget; simpl.
  { split; [by eexists|done]. }
  apply _getPort_frame in Hget as (Hcs & Hopt & _).
  destruct l as [p|msg]; simpl.
  - split; [by eexists|]. split; [done|]. exists port.
    rewrite lookup_insert_eq. unfold created. by rewrite Hro.
  - match goal with |- context [removeClient ?i ?x] =>
      pose proof (removeClient_lookup i x) as Hl;
      destruct (removeClient i x) as [m3 out3] end.
    simpl in *. split; [by eexists|done].
Qed.

(** The owner of the tunnel that waits in its grace period asks for its id
    again. *)
Lemma owner_reclaims_id_witness :
  ∃ rest,
    emitted (newClient (Scenarios.at_time 5000) "abcd"
               (Scenarios.from_ip "1.2.3.4") "tidy-eel-12" (Resolves 5000)
               Scenarios.held_in_grace)
    = ClientEffect "abcd" (Client.AgentEffect TunnelAgent.ServerClose)
      :: ClientEffect "abcd" Client.EmitClose :: rest.
Proof.
  destruct (clients Scenarios.held_in_grace !! "abcd") as [c|] eqn:Hc;
    [|vm_compute in Hc; discriminate].
  refine (proj1 (owner_reclaims_id
            (Scenarios.at_time 5000) Scenarios.held_in_grace "abcd"
            (Scenarios.from_ip "1.2.3.4") "tidy-eel-12" (Resolves 5000)
            c Hc _)).
  vm_compute in Hc. injection Hc as <-. vm_compute. reflexivity.
Defined.


(** The events on which a client calls its own [close()]: the call itself,
    the expiry of a timeout that is set, and the first error of the agent. *)
Lemma closing_event_closes w e c :
  match e with
  | Client.Close => True
  | Client.Timeout h =>
      existsb (λ p, Nat.eqb (fst p) h) (Client.armed c) = true
  | Client.AgentError => Client.errorListener c = true
  | _ => False
  end →
  snd (Client.step w e c)
  = [Client.AgentEffect TunnelAgent.ServerClose; Client.EmitClose].
Proof.
  destruct e as [ae| | | | |h|]; cbn [Client.step]; intros H; try done;
    unfold Client.onError, Client.onTimeout; by rewrite ?H, ?close_spec.
Qed.

(** X14.  In every state that the manager reaches, when a client of the
    registry closes itself (its grace timer expires, its agent reports its
    first error, or [close()] is called on it), the manager forgets it: the
    id is free afterwards, the other entries are as before, [tunnels] goes
    down by one, [close] has been emitted for that id, and the port of the
    tunnel (other than 0) is appended to the available list and no longer
    in the used set. *)
Theorem closing_client_is_removed (o : options) (ops : list op)
    (w : Client.world) (id : string) (e : Client.event) (c : Client.t) :
  let m := run ops (constructor o) in
  clients m !! id = Some c →
  match e with
  | Client.Close => True
  | Client.Timeout h =>
      existsb (λ p, Nat.eqb (fst p) h) (Client.armed c) = true
  | Client.AgentError => Client.errorListener c = true
  | _ => False
  end →
  let r := clientEvent w id e m in
  clients (fst r) !! id = None ∧
  (∀ id', id' ≠ id → clients (fst r) !! id' = clients m !! id') ∧
  tunnels (fst r) = tunnels m - 1 ∧
  ClientEffect id Client.EmitClose ∈ snd r ∧
  ∀ p, TunnelAgent.port (Client.agent c) = Some p → p ≠ 0 →
       availablePorts (fst r) = availablePorts m ++ [p] ∧
       (p ∉ usedPorts (fst r)).
Proof.
  intros m Hc He r.
  pose proof (closing_event_closes w e c He) as Hout.
  pose proof (client_step_port w e c) as Hport.
  pose proof (run_inv ops (constructor o) (constructor_inv o))
    as (Hpart & Hused & _). fold m in Hpart, Hused.
  subst r. unfold clientEvent. rewrite Hc.
  destruct (Client.step w e c) as [c1 out1]. simpl in Hout, Hport.
  subst out1. cbn [Client.closes List.filter length Nat.ltb Nat.leb].
  set (m1 := with_clients (<[id:=c1]> (clients m)) (tunnels m) m).
  assert (clients m1 !! id = Some c1) as Hc1
    by (subst m1; simpl; apply lookup_insert_eq).
  pose proof (removeClient_Some id m1 c1 Hc1) as Hrm.
  pose proof (removeClient_lookup id m1) as Hl.
  pose proof (removeClient_frame id m1) as [Hcs _].
  destruct (removeClient id m1) as [m2 out2]. cbn [fst snd] in *.
  injection Hrm as Hm2 ->.
  split; [done|]. split; [|split; [|split]].
  - intros id' Hne. rewrite Hcs. subst m1. simpl.
    by rewrite lookup_delete_ne, lookup_insert_ne.
  - rewrite Hm2. simpl.
    by destruct (_releasePort_frame
                   (TunnelAgent.port (Client.agent c1)) m1) as (_ & _ & ->).
  - simpl. set_solver.
  - intros p Hp Hp0. rewrite Hport in Hm2. rewrite Hp in Hm2.
    assert (p ∈ usedPorts m) as Hin.
    { apply (Hused id). unfold port_of. by rewrite Hc. }
    assert (range_configured m = true) as Hrc.
    { unfold pool_partition, initial_ports in Hpart. unfold range_configured.
      destruct (portRangeStart m) as [lo|], (portRangeEnd m) as [hi|];
        try (destruct (truthy (Some lo) && truthy (Some hi)); [done|]);
        apply Permutation_sym, Permutation_nil in Hpart;
        apply app_eq_nil in Hpart as [_ Hel];
        apply elements_empty_inv in Hel; set_solver. }
    rewrite (_releasePort_used p m1) in Hm2 by done.
    rewrite Hm2. simpl. split; [done|set_solver].
Qed.

(** The grace timer of the tunnel that holds the only port expires. *)
Lemma closing_client_is_removed_witness :
  let r := clientEvent (Scenarios.at_time 31000) "abcd" (Client.Timeout 0%nat)
             Scenarios.held_in_grace in
  clients (fst r) !! "abcd" = None ∧ availablePorts (fst r) = [5000].
Proof.
  destruct (clients Scenarios.held_in_grace !! "abcd") as [c|] eqn:Hc;
    [|vm_compute in Hc; discriminate].
  assert (existsb (λ p, Nat.eqb (fst p) 0) (Client.armed c) = true ∧
          TunnelAgent.port (Client.agent c) = Some 5000) as [Harmed Hport].
  { vm_compute in Hc. injection Hc as <-. by vm_compute. }
  pose proof (closing_client_is_removed
                (Options None (Some 5000) (Some 5000)) _
                (Scenarios.at_time 31000) "abcd" (Client.Timeout 0%nat) c
                Hc Harmed) as (H1 & _ & _ & _ & H5).
  split; [exact H1|].
  exact (proj1 (H5 5000 Hport ltac:(discriminate))).
Defined.

End ClientManagerMore.

(* ===================================================================== *)
(** * Numbers and their decimal form                                      *)
(* ===================================================================== *)

Section TextFacts.
Import Text.








End TextFacts.

(* ===================================================================== *)
(** * Further facts about the nonce cache and the authenticator           *)
(* ===================================================================== *)

Section NonceCacheFacts.
Import Text NonceCache.

Lemma has_answer now v c :
  fst (has now v c)
  = match cache c !! toString v with
    | Some e => now <? e
    | None => false
    end.
Proof.
  unfold has. destruct (cache c !! toString v) as [e|]; [|done].
  destruct (Z.leb_spec e now), (Z.ltb_spec now e); simpl; done || lia.
Qed.

(** X15.  A nonce that was added at time [t0] is reported by [has] exactly
    until its time to live is over, whatever the cache held before; adding
    it changes the answer for no other key, and two numbers are the same
    key only if they are equal. *)
Theorem nonce_remembered_until_expiry (t0 t1 : Z) (v v' : value) (c : t) :
  fst (has t1 v (add t0 v c)) = (t1 <? t0 + ttl c) ∧
  (toString v' ≠ toString v →
     fst (has t1 v' (add t0 v c)) = fst (has t1 v' c)) ∧
  (∀ n n', n ≠ n' →
     fst (has t1 (Num n') (add t0 (Num n) c)) = fst (has t1 (Num n') c)).
Proof.
  assert (∀ u u', toString u' ≠ toString u →
            fst (has t1 u' (add t0 u c)) = fst (has t1 u' c)) as Hother.
  { intros u u' Hne. rewrite !has_answer. unfold add. simpl.
    by rewrite lookup_insert_ne. }
  split; [|split].
  - rewrite has_answer. unfold add. simpl. by rewrite lookup_insert_eq.
  - apply Hother.
  - intros n n' Hne. apply Hother. simpl. unfold num.
    intros H. by apply (inj pretty) in H.
Qed.

(** The removal of an expired entry inside [has] changes no later answer. *)
Lemma has_after_has (t1 t2 : Z) (v v' : value) (c : t) :
  t1 ≤ t2 → fst (has t2 v (snd (has t1 v' c))) = fst (has t2 v c).
Proof.
  intros Ht. rewrite !has_answer. unfold has.
  destruct (cache c !! toString v') as [e'|] eqn:He'; [|done].
  destruct (Z.leb_spec e' t1); [|done]. simpl.
  destruct (decide (toString v' = toString v)) as [Heq|Hne].
  - rewrite <- Heq, lookup_delete_eq, He'. symmetry. apply Z.ltb_ge. lia.
  - by rewrite lookup_delete_ne.
Qed.

(** X16.  The housekeeping of the cache is invisible: neither [cleanup] nor
    the removal of an expired entry inside [has] changes what [has] answers
    at that time or later; after [cleanup] no entry of the cache has
    expired, each entry left was there before, and the cache has not
    grown. *)
Theorem housekeeping_keeps_answers (t1 t2 : Z) (v v' : value) (c : t) :
  t1 ≤ t2 →
  fst (has t2 v (cleanup t1 c)) = fst (has t2 v c) ∧
  fst (has t2 v (snd (has t1 v' c))) = fst (has t2 v c) ∧
  (∀ k e, cache (cleanup t1 c) !! k = Some e →
          t1 < e ∧ cache c !! k = Some e) ∧
  (size (cleanup t1 c) ≤ size c)%nat.
Proof.
  intros Ht. split; [|split; [|split]].
  - rewrite !has_answer. unfold cleanup. simpl.
    destruct (cache c !! toString v) as [e|] eqn:He.
    + destruct (decide (t1 < e)) as [Hlt|Hge].
      * by rewrite (map_lookup_filter_Some_2 _ _ _ e He).
      * rewrite (proj2 (map_lookup_filter_None _ _ _)).
        { symmetry. apply Z.ltb_ge. lia. }
        right. intros x Hx. simpl. congruence.
    + rewrite (proj2 (map_lookup_filter_None _ _ _)); [done|by left].
  - by apply has_after_has.
  - intros k e [H1 H2]%map_lookup_filter_Some. done.
  - unfold size, cleanup. simpl. apply map_size_filter.
Qed.

(** A cache of ten seconds, cleaned one second after the entry was made. *)
Lemma housekeeping_keeps_answers_witness :
  let c := add 1000 (Num 42) (constructor 10) in
  fst (has 3000 (Num 42) (cleanup 2000 c)) = fst (has 3000 (Num 42) c).
Proof.
  intros c.
  exact (proj1 (housekeeping_keeps_answers 2000 3000 (Num 42) (Num 42) c
                  ltac:(lia))).
Defined.

End NonceCacheFacts.

Section HmacMore.
Import Text HmacAuthenticator.




Lemma validateNonce_cache now nonceStr tsStr a o a1 :
  validateNonce now nonceStr tsStr a = (o, a1) →
  nonceCache a1 = nonceCache a ∨
  ∃ n, nonceCache a1 = snd (NonceCache.has now (NonceCache.Num n)
                              (nonceCache a)).
Proof.
  unfold validateNonce. destruct (parseInt nonceStr) as [n|];
    [|intros [= _ <-]; by left].
  repeat (case_match; try (intros [= _ <-]; by left)).
  all: intros [= _ <-]; right; exists n; simpl;
    match goal with H : NonceCache.has _ _ _ = _ |- _ => by rewrite H end.
Qed.

(** X18.  A request that is refused leaves the authenticator as it was for
    every later check: nothing enters the cache, the secret and the two
    windows are the same, and [has] answers at that time or later as it
    would have answered without the request. *)
Theorem refused_request_leaves_no_trace (hmac : string → string → string)
    (now : Z) (req : request) (a a' : t) (f : failure) :
  validateRequest hmac now req a = (Invalid f, a') →
  secret a' = secret a ∧
  timestampTolerance a' = timestampTolerance a ∧
  nonceThreshold a' = nonceThreshold a ∧
  NonceCache.ttl (nonceCache a') = NonceCache.ttl (nonceCache a) ∧
  (∀ k x, NonceCache.cache (nonceCache a') !! k = Some x →
          NonceCache.cache (nonceCache a) !! k = Some x) ∧
  (∀ later v, now ≤ later →
     fst (NonceCache.has later v (nonceCache a'))
     = fst (NonceCache.has later v (nonceCache a))).
Proof.
  intros H.
  assert (a' = a ∨ ∃ nonceStr tsStr o,
            validateNonce now nonceStr tsStr a = (o, a')) as [->|Hn].
  { revert H. unfold validateRequest.
    destruct (extractHeaders req) as [f0 | [[auth tsStr] nonceStr]];
      [intros [= _ <-]; by left|].
    destruct (parseAuthorizationHeader auth) as [signature|];
      [|intros [= _ <-]; by left].
    destruct (validateTimestamp now tsStr a) as [f0|];
      [intros [= _ <-]; by left|].
    destruct (validateNonce now nonceStr tsStr a) as [[f0|] a1] eqn:Hn.
    - intros [= _ <-]. right. by eexists _, _, _.
    - case_match; [done|]. intros [= _ <-]. right. by eexists _, _, _. }
  { repeat split; done. }
  destruct Hn as (nonceStr & tsStr & o & Hn).
  destruct (validateNonce_fields _ _ _ _ _ _ Hn) as (Hsec & Htol & Hthr).
  split; [done|]. split; [done|]. split; [done|].
  apply validateNonce_cache in Hn as [->|[n ->]]; [repeat split; done|].
  destruct (NonceCache.has now (NonceCache.Num n) (nonceCache a))
    as [b c'] eqn:Hhas.
  pose proof (has_lookup _ _ _ _ _ Hhas) as [Httl Hsub].
  simpl. split; [done|]. split; [done|]. intros later v Hlater.
  pose proof (has_after_has now later v (NonceCache.Num n)
                (nonceCache a) Hlater) as Hk.
  by rewrite Hhas in Hk.
Qed.

(** A request without headers. *)
Lemma refused_request_leaves_no_trace_witness :
  let a := constructor "0123456789abcdef0123456789abcdef"
             (Options None None None) in
  let req := Request None None None "GET" "/abcd" None in
  secret (snd (validateRequest Scenarios.toy_digest 1700000000000 req a))
  = secret a.
Proof.
  intros a req.
  exact (proj1 (refused_request_leaves_no_trace Scenarios.toy_digest
                  1700000000000 req a _
                  (Failure "Missing Authorization header"
                           "missing_auth_header") eq_refl)).
Defined.



Lemma hex_value_lower c : hex_value (lower c) = hex_value c.
Proof. destruct c as [[] [] [] [] [] [] [] []]; reflexivity. Qed.

Lemma hex_value_code c v :
  hex_value c = Some v →
  0 ≤ v < 16 ∧
  nat_of_ascii (lower c) = Z.to_nat (if v <? 10 then v + 48 else v + 87).
Proof.
  unfold hex_value.
  set (n := Z.of_nat (nat_of_ascii (lower c))).
  assert (nat_of_ascii (lower c) = Z.to_nat n) as -> by (subst n; lia).
  destruct ((48 <=? n) && (n <=? 57)) eqn:E1.
  - intros [= <-]. apply andb_true_iff in E1 as [? ?].
    assert ((n - 48 <? 10) = true) as -> by lia. split; [lia|f_equal; lia].
  - destruct ((97 <=? n) && (n <=? 102)) eqn:E2; [|done].
    intros [= <-]. apply andb_true_iff in E2 as [? ?].
    assert ((n - 87 <? 10) = false) as -> by lia. split; [lia|f_equal; lia].
Qed.

Lemma hex_value_inj c c' v :
  hex_value c = Some v → hex_value c' = Some v → lower c = lower c'.
Proof.
  intros [_ H]%hex_value_code [_ H']%hex_value_code.
  rewrite <- (ascii_nat_embedding (lower c)),
    <- (ascii_nat_embedding (lower c')). congruence.
Qed.

Lemma hex_decode_lower l : hex_decode (map lower l) = hex_decode l.
Proof.
  revert l. fix IH 1. intros [|a [|b l]]; [done..|].
  simpl. rewrite !hex_value_lower. by rewrite IH.
Qed.

Lemma hex_decode_inj : ∀ l1 l2,
  forallb is_hex l1 = true → forallb is_hex l2 = true →
  length l1 = length l2 → Nat.even (length l1) = true →
  hex_decode l1 = hex_decode l2 → map lower l1 = map lower l2.
Proof.
  fix IH 1. intros [|a [|b l1]] [|a' [|b' l2]]; try done.
  simpl length. intros H1 H2 [= Hlen] Hev.
  change (forallb is_hex (a :: b :: l1))
    with (is_hex a && (is_hex b && forallb is_hex l1)) in H1.
  change (forallb is_hex (a' :: b' :: l2))
    with (is_hex a' && (is_hex b' && forallb is_hex l2)) in H2.
  apply andb_true_iff in H1 as [Ha [Hb H1]%andb_true_iff].
  apply andb_true_iff in H2 as [Ha' [Hb' H2]%andb_true_iff].
  unfold is_hex in Ha, Hb, Ha', Hb'. cbn [hex_decode].
  destruct (hex_value a) as [x|] eqn:Ex; [|done].
  destruct (hex_value b) as [y|] eqn:Ey; [|done].
  destruct (hex_value a') as [x'|] eqn:Ex'; [|done].
  destruct (hex_value b') as [y'|] eqn:Ey'; [|done].
  intros [= Hv Hrest].
  destruct (hex_value_code _ _ Ex) as [? _].
  destruct (hex_value_code _ _ Ey) as [? _].
  destruct (hex_value_code _ _ Ex') as [? _].
  destruct (hex_value_code _ _ Ey') as [? _].
  assert (x = x') as -> by lia. assert (y = y') as -> by lia.
  cbn [map]. rewrite (hex_value_inj _ _ _ Ex Ex'), (hex_value_inj _ _ _ Ey Ey').
  f_equal. f_equal. by apply IH.
Qed.

(** X20.  Among the strings of hex digits that are as long as the expected
    digest (an even number of digits), [verifySignature] accepts exactly
    the digest itself, the case of the letters apart. *)
Theorem verifySignature_exact (provided expected : string) :
  forallb is_hex (list_ascii_of_string provided) = true →
  forallb is_hex (list_ascii_of_string expected) = true →
  String.length provided = String.length expected →
  Nat.even (String.length provided) = true →
  verifySignature provided expected = true ↔
  map lower (list_ascii_of_string provided)
  = map lower (list_ascii_of_string expected).
Proof.
  intros Hp He Hlen Hev. unfold verifySignature.
  rewrite bool_decide_eq_true. rewrite <- !length_list_ascii in *. split.
  - by apply hex_decode_inj.
  - intros H. by rewrite <- (hex_decode_lower (list_ascii_of_string provided)),
      H, hex_decode_lower.
Qed.

(** A digest sent in capital letters. *)
Lemma verifySignature_exact_witness :
  verifySignature "00FF" "00ff" = true.
Proof.
  exact (proj2 (verifySignature_exact "00FF" "00ff" eq_refl eq_refl eq_refl
                  eq_refl) eq_refl).
Defined.

End HmacMore.

(* ===================================================================== *)
(** * Further facts about the admin routes and the public router          *)
(* ===================================================================== *)

Section RegexMore.
Import Regex.

Lemma lower_digit_hyphen_of c : lower_digit c = true → lower_digit_hyphen c = true.
Proof. unfold lower_digit, lower_digit_hyphen. intros ->. done. Qed.

Lemma forallb_lower_digit_hyphen s :
  forallb lower_digit s = true → forallb lower_digit_hyphen s = true.
Proof.
  induction s as [|c s IH]; [done|]. simpl.
  intros [Hc Hs]%andb_true_iff. by rewrite (lower_digit_hyphen_of c Hc), IH.
Qed.

Lemma rev_head_last (s : list ascii) :
  match rev s with
  | [] => s = []
  | c :: r => s = rev r ++ [c]
  end.
Proof.
  destruct (rev s) as [|c r] eqn:E.
  - apply (f_equal (@rev ascii)) in E. by rewrite rev_involutive in E.
  - apply (f_equal (@rev ascii)) in E. by rewrite rev_involutive in E.
Qed.

(** X21.  The ids that the route [/:id] lets through are exactly the strings
    of lowercase letters, digits and hyphens that begin and end with a
    letter or digit and have 6 to 65 characters, or 4 to 5 characters and
    no hyphen.  For ids of 6 to 63 characters this is the rule that the
    route announces. *)
Theorem valid_subdomain_exact (reqId : string) :
  let s := list_ascii_of_string reqId in
  (valid_subdomain reqId = true ↔
   forallb lower_digit_hyphen s = true ∧
   (∃ c rest, s = c :: rest ∧ lower_digit c = true) ∧
   (∃ front c, s = front ++ [c] ∧ lower_digit c = true) ∧
   ((6 ≤ length s ≤ 65)%nat ∨
    ((4 ≤ length s ≤ 5)%nat ∧ forallb lower_digit s = true))) ∧
  ((6 ≤ length s ≤ 63)%nat →
   valid_subdomain reqId = announced_subdomain reqId).
Proof.
  intros s.
  assert (valid_subdomain reqId = true ↔
    forallb lower_digit_hyphen s = true ∧
    (∃ c rest, s = c :: rest ∧ lower_digit c = true) ∧
    (∃ front c, s = front ++ [c] ∧ lower_digit c = true) ∧
    ((6 ≤ length s ≤ 65)%nat ∨
     ((4 ≤ length s ≤ 5)%nat ∧ forallb lower_digit s = true))) as Hexact.
  { rewrite valid_subdomain_spec. cbv zeta. fold s. clearbody s. split.
    - intros [[Hlen Hall] | (c1 & mid & c2 & -> & Hc1 & Hc2 & Hlen & Hmid)].
      + split; [by apply forallb_lower_digit_hyphen|].
        split; [|split].
        * destruct s as [|c rest]; [simpl in Hlen; lia|].
          simpl in Hall. apply andb_true_iff in Hall as [? ?]. eauto.
        * pose proof (rev_head_last s) as Hr.
          destruct (rev s) as [|c r]; [subst s; simpl in Hlen; lia|].
          exists (rev r), c. split; [done|]. rewrite Hr in Hall.
          rewrite forallb_app in Hall.
          apply andb_true_iff in Hall as [_ Hc]. simpl in Hc.
          by rewrite andb_true_r in Hc.
        * destruct (decide (6 ≤ length s)%nat); [left; lia|right].
          split; [lia|done].
      + split; [|split; [|split]].
        * simpl. rewrite forallb_app. simpl.
          by rewrite (lower_digit_hyphen_of c1 Hc1), Hmid,
            (lower_digit_hyphen_of c2 Hc2).
        * eauto.
        * exists (c1 :: mid), c2. done.
        * left. simpl. rewrite length_app. simpl. lia.
    - intros (Hall & (c1 & rest & Hs1 & Hc1) & (front & c2 & Hs2 & Hc2) & Hlen).
      destruct Hlen as [Hlen | [Hlen Hld]]; [right | by left; split; [lia|]].
      destruct front as [|c mid].
      { rewrite Hs2 in Hlen. simpl in Hlen. lia. }
      rewrite Hs2 in Hs1. injection Hs1 as -> _.
      exists c1, mid, c2. rewrite Hs2 in Hall, Hlen. simpl in Hall, Hlen.
      rewrite length_app in Hlen. simpl in Hlen.
      apply andb_true_iff in Hall as [_ Hall]. rewrite forallb_app in Hall.
      apply andb_true_iff in Hall as [Hmid _].
      repeat split; try done; lia. }
  split; [exact Hexact|].
  intros Hlen. unfold announced_subdomain. fold s.
  destruct (valid_subdomain reqId) eqn:Hv.
  - destruct (proj1 Hexact eq_refl)
      as (Hall & (c1 & rest & Hs1 & Hc1) & (front & c2 & Hs2 & Hc2) & _).
    symmetry. rewrite !andb_true_iff. repeat split.
    + apply Nat.leb_le. lia.
    + apply Nat.leb_le. lia.
    + done.
    + by rewrite Hs1.
    + rewrite Hs2, rev_app_distr. done.
  - symmetry. apply not_true_iff_false. intros Ha.
    rewrite !andb_true_iff in Ha. destruct Ha as [[[[_ _] Hall] H1] H2].
    assert (false = true) as Hv'; [|congruence].
    apply Hexact. split; [done|]. split; [|split; [|left; lia]].
    + destruct s as [|c rest]; [done|]. eauto.
    + pose proof (rev_head_last s) as Hr.
      destruct (rev s) as [|c r]; [done|]. eauto.
Qed.

End RegexMore.

Section ServerMore.
Import Text Server.

Lemma prefix_app (n rest : string) : String.prefix n (n +:+ rest) = true.
Proof.
  induction n as [|c n IH]; simpl; [by destruct rest|].
  destruct (ascii_dec c c); [exact IH | done].
Qed.

Lemma includes_prefix (n hay : string) :
  String.prefix n hay = true → includes n hay = true.
Proof. intros H. destruct hay; cbn [includes]; by rewrite H. Qed.

Lemma includes_here (n rest : string) : includes n (n +:+ rest) = true.
Proof. apply includes_prefix, prefix_app. Qed.

Lemma includes_app (before n rest : string) :
  includes n (before +:+ n +:+ rest) = true.
Proof.
  induction before as [|c b IH].
  - change ("" +:+ n +:+ rest) with (n +:+ rest). apply includes_here.
  - change (String c b +:+ n +:+ rest) with (String c (b +:+ n +:+ rest)).
    cbn [includes]. rewrite IH. apply orb_true_r.
Qed.

Lemma append_assoc (a b c : string) : (a +:+ b) +:+ c = a +:+ (b +:+ c).
Proof.
  induction a as [|x a IH]; [done|].
  change (String x ((a +:+ b) +:+ c) = String x (a +:+ b +:+ c)).
  by rewrite IH.
Qed.

(** X22.  The refusal of strict mode always reaches the caller as 409
    Conflict: whatever the id and the time left, the text of the error that
    [newClient] throws contains the words that the route looks for, and the
    answer carries that text; the error of an empty port pool is thrown
    again instead. *)
Theorem strict_refusal_is_conflict (w : Client.world) (m : ClientManager.t)
    (id : string) (no : ClientManager.new_options) (rnd : string)
    (l : ClientManager.listen_outcome) (existing : Client.t)
    (h : Client.timer) :
  ClientManager.clients m !! id = Some existing →
  Client.isOnline existing = false →
  Client.graceTimeout existing = Some h →
  ClientManager.identifierMatch (Client.identifier existing)
    (ClientManager.caller_identifier no) = false →
  ClientManager.strictMode (Client.env w) = true →
  (∃ e, ClientManager.result (ClientManager.newClient w id no rnd l m) = inl e ∧
        onNewClientError e
        = Conflict 409 "Subdomain reserved" (ClientManager.message e) ∧
        ClientManager.message e
        = "Subdomain " +:+ dquote +:+ id +:+ dquote
          +:+ " is reserved by another client. Try again in "
          +:+ num (ceil_div (Client.getGracePeriodRemaining w existing) 1000)
          +:+ "s or use a different subdomain.") ∧
  (∀ id' t, onNewClientError (ClientManager.Reserved id' t)
            = Conflict 409 "Subdomain reserved"
                (ClientManager.message (ClientManager.Reserved id' t))) ∧
  onNewClientError ClientManager.NoAvailablePorts
  = Rethrown ClientManager.NoAvailablePorts.
Proof.
  intros Hex Hoff Hg Hmis Hstrict.
  assert (∀ id' t, onNewClientError (ClientManager.Reserved id' t)
            = Conflict 409 "Subdomain reserved"
                (ClientManager.message (ClientManager.Reserved id' t)))
    as Hall.
  { intros id' t. unfold onNewClientError.
    assert (includes "reserved by another client"
              (ClientManager.message (ClientManager.Reserved id' t)) = true)
      as ->; [|done].
    assert (ClientManager.message (ClientManager.Reserved id' t)
            = ("Subdomain " +:+ dquote +:+ id' +:+ dquote +:+ " is ")
              +:+ "reserved by another client"
              +:+ (". Try again in " +:+ num t
                   +:+ "s or use a different subdomain.")) as ->.
    { rewrite !append_assoc. reflexivity. }
    apply includes_app. }
  split; [|split; [exact Hall | reflexivity]].
  eexists. split; [|split; [apply Hall | reflexivity]].
  unfold ClientManager.newClient, ClientManager.newClient_begin,
    ClientManager.resolve_id.
  rewrite Hex, Hoff, Hg, Hmis, Hstrict.
  rewrite bool_decide_true by eauto. reflexivity.
Qed.

(** Another address asks, in strict mode, for the id of the tunnel that
    waits in its grace period. *)
Lemma strict_refusal_is_conflict_witness :
  let w := Client.World 5000
             (Client.Env None None (Some "true"%string)) in
  ∃ e, ClientManager.result
         (ClientManager.newClient w "abcd" (Scenarios.from_ip "5.6.7.8")
            "tidy-eel-12" (ClientManager.Resolves 5000)
            Scenarios.held_in_grace) = inl e ∧
       onNewClientError e
       = Conflict 409 "Subdomain reserved" (ClientManager.message e).
Proof.
  intros w.
  destruct (ClientManager.clients Scenarios.held_in_grace !! "abcd")
    as [c|] eqn:Hc; [|vm_compute in Hc; discriminate].
  assert (Client.isOnline c = false ∧ Client.graceTimeout c = Some 0%nat ∧
          ClientManager.identifierMatch (Client.identifier c)
            (ClientManager.caller_identifier (Scenarios.from_ip "5.6.7.8"))
          = false) as (Hoff & Hg & Hmis).
  { vm_compute in Hc. injection Hc as <-. by vm_compute. }
  destruct (strict_refusal_is_conflict w Scenarios.held_in_grace "abcd"
              (Scenarios.from_ip "5.6.7.8") "tidy-eel-12"
              (ClientManager.Resolves 5000) c 0%nat Hc Hoff Hg Hmis eq_refl)
    as ((e & He & Hconf & _) & _).
  exists e. split; [exact He | exact Hconf].
Defined.





Lemma trim_start_id l :
  match l with c :: _ => is_trim_space c = false | [] => True end →
  trim_start l = l.
Proof. destruct l as [|c l]; [done|]. simpl. by intros ->. Qed.

Lemma token_char_no_space c : token_char c = true → is_trim_space c = false.
Proof.
  destruct c as [[] [] [] [] [] [] [] []]; vm_compute; intros H;
    try discriminate H; done.
Qed.

(** A string of token characters has nothing to trim. *)
Lemma trim_token t :
  forallb token_char (list_ascii_of_string t) = true → trim t = t.
Proof.
  intros H. unfold trim.
  set (l := list_ascii_of_string t) in *.
  assert (trim_start l = l) as ->.
  { apply trim_start_id. destruct l as [|c l']; [done|].
    simpl in H. apply andb_true_iff in H as [Hc _].
    by apply token_char_no_space. }
  assert (trim_start (rev l) = rev l) as ->.
  { apply trim_start_id. destruct (rev l) as [|c r] eqn:E; [done|].
    apply token_char_no_space.
    assert (c ∈ l) as Hin.
    { apply elem_of_reverse. unfold reverse. rewrite <- rev_alt, E. by left. }
    rewrite forallb_forall in H. apply H. by apply list_elem_of_In. }
  rewrite rev_involutive. subst l. apply string_of_list_ascii_of_string.
Qed.

(** X24.  The identifier of a caller is a token or an address.  A token
    identifier is the trimmed header: 1 to 256 characters, all of them
    letters, digits, underscores or hyphens; trimming it again changes
    nothing, so a caller who sends it back as it is gets the same
    identifier.  In every other case the identifier is the address that
    [getClientIP] finds, which is the address of the socket unless
    LT_TRUST_PROXY is [true]. *)
Theorem client_identifier_shape (LT_TRUST_PROXY : option string)
    (req : caller) :
  let i := getClientIdentifier LT_TRUST_PROXY req in
  (Client.type i = "token"%string ∨ Client.type i = "ip"%string) ∧
  (Client.type i = "ip"%string →
     Client.value i = getClientIP LT_TRUST_PROXY req) ∧
  (Client.type i = "token"%string →
     ∃ raw t, x_lt_client_token req = Some raw ∧ t = trim raw ∧
       Client.value i = Some t ∧
       (1 ≤ String.length t ≤ 256)%nat ∧
       forallb token_char (list_ascii_of_string t) = true ∧
       trim t = t ∧
       getClientIdentifier LT_TRUST_PROXY
         (Caller (Some t) (x_forwarded_for req) (x_real_ip req)
                 (remoteAddress req)) = i) ∧
  (LT_TRUST_PROXY ≠ Some "true"%string →
     getClientIP LT_TRUST_PROXY req = remoteAddress req).
Proof.
  intros i. subst i. split; [|split; [|split]].
  - unfold getClientIdentifier. repeat case_match; simpl; auto.
  - unfold getClientIdentifier. repeat case_match; simpl; done.
  - unfold getClientIdentifier.
    destruct (x_lt_client_token req) as [raw|] eqn:Hraw; [|done].
    destruct (nonempty (Some raw)) as [clientToken|] eqn:Hne; [|done].
    assert (clientToken = raw) as -> by (destruct raw; simpl in Hne; congruence).
    destruct (Nat.ltb 0 (String.length (trim raw))) eqn:Hpos; [|done].
    cbv zeta.
    destruct (Nat.ltb 256 (String.length (trim raw))) eqn:Hlong; [done|].
    destruct (token_format (trim raw)) eqn:Hfmt; [|done]. simpl. intros _.
    assert (forallb token_char (list_ascii_of_string (trim raw)) = true)
      as Hall.
    { unfold token_format in Hfmt.
      by destruct (list_ascii_of_string (trim raw)). }
    pose proof (trim_token _ Hall) as Htrim.
    assert (nonempty (Some (trim raw)) = Some (trim raw)) as Hne'.
    { destruct (trim raw); [discriminate Hpos | done]. }
    assert (getClientIdentifier LT_TRUST_PROXY
              (Caller (Some (trim raw)) (x_forwarded_for req) (x_real_ip req)
                      (remoteAddress req))
            = Client.Identifier "token" (Some (trim raw))) as Hagain.
    { unfold getClientIdentifier. cbn [x_lt_client_token].
      by rewrite Hne', Htrim, Hpos, Hlong, Hfmt. }
    apply Nat.ltb_lt in Hpos. apply Nat.ltb_ge in Hlong.
    exists raw, (trim raw). repeat (split; [done || lia|]). exact Hagain.
  - intros Hno. unfold getClientIP. by rewrite bool_decide_false.
Qed.

End ServerMore.
